(** * A shallow embedding of the multiplayer world client (src/game.js)

    The class [GameClient] keeps all of its state in the fields of [this];
    every method is embedded as a function on an explicit state record, and
    what a method does to the browser (socket sends, timers, animation-frame
    requests, console errors) is appended to a chronological trace.

    JavaScript numbers are embedded twice.  [JsNum] has exact rationals
    and one extra value for NaN, which is what arithmetic on an absent
    ([undefined]) field of a player record produces; it serves the
    statements that do not depend on how a result is rounded.  [Double]
    rounds every result to the nearest double, as the code does, and
    serves the statements that do. *)

From Stdlib Require Import QArith Qminmax Lqa.
From stdpp Require Import gmap strings list fin_maps.

Local Open Scope string_scope.
Local Open Scope list_scope.

(** ** Numbers *)

Module JsNum.

Inductive num : Type :=
| NaN
| Num (q : Q).

(** [a == b] on numbers: equal values, whatever fraction represents them;
    NaN equals nothing. *)
Definition eq_num (a b : num) : Prop :=
  match a, b with
  | Num p, Num q => (p == q)%Q
  | _, _ => False
  end.

Definition of_field (o : option Q) : num :=
  match o with
  | Some q => Num q
  | None => NaN
  end.

Definition lift2 (f : Q -> Q -> Q) (a b : num) : num :=
  match a, b with
  | Num p, Num q => Num (f p q)
  | _, _ => NaN
  end.

Definition add : num -> num -> num := lift2 Qplus.
Definition sub : num -> num -> num := lift2 Qminus.
Definition div : num -> num -> num := lift2 Qdiv.
Definition neg (a : num) : num :=
  match a with
  | Num p => Num (- p)
  | NaN => NaN
  end.

(** [Math.max] and [Math.min] return NaN as soon as one argument is NaN. *)
Definition max : num -> num -> num := lift2 Qmax.
Definition min : num -> num -> num := lift2 Qmin.

(** [a <= b] and [a >= b]; every comparison with NaN is false. *)
Definition leb (a b : num) : bool :=
  match a, b with
  | Num p, Num q => Qle_bool p q
  | _, _ => false
  end.
Definition geb (a b : num) : bool := leb b a.

Definition of_Z (z : Z) : num := Num (inject_Z z).

End JsNum.

Import JsNum.

(** ** Data model *)

(** The JSON scalars an index field such as [animationFrame] can hold;
    [JUndefined] is the absent field. *)
Inductive jsval : Type :=
| JUndefined
| JNull
| JBool (b : bool)
| JInt (n : Z).

Definition truthy (v : jsval) : bool :=
  match v with
  | JUndefined | JNull => false
  | JBool b => b
  | JInt n => negb (n =? 0)%Z
  end.

(** [v || d] *)
Definition js_or (v d : jsval) : jsval := if truthy v then v else d.

Inductive Facing : Type := north | south | east | west.

Definition facing_name (f : Facing) : string :=
  match f with
  | north => "north"
  | south => "south"
  | east => "east"
  | west => "west"
  end.

(** The property name an optional string or facing is turned into when it
    is used as an object key. *)
Definition prop_key (o : option string) : string :=
  match o with
  | Some k => k
  | None => "undefined"
  end.

(** The property names every plain object inherits from
    [Object.prototype]; each of them reads as a function, or as the
    prototype itself for [__proto__], all of them truthy and none of them
    with fields of its own that the client looks at.  The list is there
    for reads; what an assignment under [__proto__] does to the prototype
    chain is not modelled. *)
Definition objectPrototypeNames : list string :=
  ["constructor"; "__defineGetter__"; "__defineSetter__"; "hasOwnProperty";
   "__lookupGetter__"; "__lookupSetter__"; "isPrototypeOf";
   "propertyIsEnumerable"; "toString"; "valueOf"; "__proto__";
   "toLocaleString"].

Definition inherited (key : string) : bool :=
  existsb (String.eqb key) objectPrototypeNames.

(** What [object[key]] finds on an object used as a map: an own property,
    an inherited one, or nothing ([undefined]). *)
Inductive Property (A : Type) : Type :=
| Own (a : A)
| Inherited
| Missing.

Arguments Own {A} a.
Arguments Inherited {A}.
Arguments Missing {A}.

Definition js_get {A : Type} (object : gmap string A) (key : string) : Property A :=
  match object !! key with
  | Some a => Own a
  | None => if inherited key then Inherited else Missing
  end.

(** A player record as it arrives in JSON.  Movement patches carry only
    part of the fields, so every field may be absent. *)
Record Player : Type := mkPlayer {
  player_id : option string;
  player_username : option string;
  player_x : option Q;
  player_y : option Q;
  player_facing : option Facing;
  player_avatar : option string;
  player_animationFrame : jsval
}.

Definition no_fields : Player :=
  mkPlayer None None None None None None JUndefined.

Record Avatar : Type := mkAvatar {
  avatar_name : string;
  (** facing name -> sequence of image sources *)
  avatar_frames : gmap string (list string)
}.

(** Outgoing messages. *)
Inductive Intent : Type :=
| JoinGame (username : string)
| Move (direction : string)
| Stop.

(** Incoming messages, by their [action]. *)
Record JoinAck : Type := mkJoinAck {
  ack_success : bool;
  ack_playerId : option string;
  ack_players : gmap string Player;
  ack_avatars : gmap string Avatar;
  ack_error : option string
}.

Inductive ServerMessage : Type :=
| join_game (data : JoinAck)
| players_moved (patch : gmap string Player)
| player_joined (player : Player) (avatar : Avatar)
| player_left (playerId : string)
| unknown_action (action : string).

Inductive ReadyState : Type := CONNECTING | OPEN | CLOSING | CLOSED.

(** What the client does to its environment. *)
Inductive Effect : Type :=
| WsSend (m : Intent)
| SendRefused (m : Intent)
| SetTimeout (delay_ms : Z)
| ConsoleError (msg : string)
| RequestFrame (handle : nat)
| CancelFrame (handle : nat).

(** ** The client state: the fields of [this] and the trace *)

Record GameClient : Type := mkGameClient {
  canvas_width : Z;
  canvas_height : Z;
  worldWidth : Z;
  worldHeight : Z;
  myPlayerId : option string;
  players : gmap string Player;
  avatars : gmap string Avatar;
  viewportX : num;
  viewportY : num;
  keysPressed : list string;
  isMoving : bool;
  currentDirection : option string;
  movementLoopId : option nat;
  ws : option ReadyState;
  reconnectAttempts : nat;
  maxReconnectAttempts : nat;
  frameHandles : nat;
  trace : list Effect
}.

(** The state the constructor builds before [init] runs. *)
Definition constructed (w h : Z) : GameClient :=
  {| canvas_width := w; canvas_height := h;
     worldWidth := 2048; worldHeight := 2048;
     myPlayerId := None; players := ∅; avatars := ∅;
     viewportX := Num 0; viewportY := Num 0;
     keysPressed := []; isMoving := false; currentDirection := None;
     movementLoopId := None;
     ws := None; reconnectAttempts := 0; maxReconnectAttempts := 5;
     frameHandles := 0; trace := [] |}.

Section Setters.

Definition set_canvas (w h : Z) (s : GameClient) : GameClient :=
  {| canvas_width := w; canvas_height := h; worldWidth := worldWidth s;
     worldHeight := worldHeight s; myPlayerId := myPlayerId s;
     players := players s; avatars := avatars s; viewportX := viewportX s;
     viewportY := viewportY s; keysPressed := keysPressed s;
     isMoving := isMoving s; currentDirection := currentDirection s;
     movementLoopId := movementLoopId s; ws := ws s;
     reconnectAttempts := reconnectAttempts s;
     maxReconnectAttempts := maxReconnectAttempts s;
     frameHandles := frameHandles s; trace := trace s |}.

Definition set_myPlayerId (v : option string) (s : GameClient) : GameClient :=
  {| canvas_width := canvas_width s; canvas_height := canvas_height s;
     worldWidth := worldWidth s; worldHeight := worldHeight s;
     myPlayerId := v; players := players s; avatars := avatars s;
     viewportX := viewportX s; viewportY := viewportY s;
     keysPressed := keysPressed s; isMoving := isMoving s;
     currentDirection := currentDirection s;
     movementLoopId := movementLoopId s; ws := ws s;
     reconnectAttempts := reconnectAttempts s;
     maxReconnectAttempts := maxReconnectAttempts s;
     frameHandles := frameHandles s; trace := trace s |}.

Definition set_players (v : gmap string Player) (s : GameClient) : GameClient :=
  {| canvas_width := canvas_width s; canvas_height := canvas_height s;
     worldWidth := worldWidth s; worldHeight := worldHeight s;
     myPlayerId := myPlayerId s; players := v; avatars := avatars s;
     viewportX := viewportX s; viewportY := viewportY s;
     keysPressed := keysPressed s; isMoving := isMoving s;
     currentDirection := currentDirection s;
     movementLoopId := movementLoopId s; ws := ws s;
     reconnectAttempts := reconnectAttempts s;
     maxReconnectAttempts := maxReconnectAttempts s;
     frameHandles := frameHandles s; trace := trace s |}.

Definition set_avatars (v : gmap string Avatar) (s : GameClient) : GameClient :=
  {| canvas_width := canvas_width s; canvas_height := canvas_height s;
     worldWidth := worldWidth s; worldHeight := worldHeight s;
     myPlayerId := myPlayerId s; players := players s; avatars := v;
     viewportX := viewportX s; viewportY := viewportY s;
     keysPressed := keysPressed s; isMoving := isMoving s;
     currentDirection := currentDirection s;
     movementLoopId := movementLoopId s; ws := ws s;
     reconnectAttempts := reconnectAttempts s;
     maxReconnectAttempts := maxReconnectAttempts s;
     frameHandles := frameHandles s; trace := trace s |}.

Definition set_viewport (vx vy : num) (s : GameClient) : GameClient :=
  {| canvas_width := canvas_width s; canvas_height := canvas_height s;
     worldWidth := worldWidth s; worldHeight := worldHeight s;
     myPlayerId := myPlayerId s; players := players s;
     avatars := avatars s; viewportX := vx; viewportY := vy;
     keysPressed := keysPressed s; isMoving := isMoving s;
     currentDirection := currentDirection s;
     movementLoopId := movementLoopId s; ws := ws s;
     reconnectAttempts := reconnectAttempts s;
     maxReconnectAttempts := maxReconnectAttempts s;
     frameHandles := frameHandles s; trace := trace s |}.

Definition set_keysPressed (v : list string) (s : GameClient) : GameClient :=
  {| canvas_width := canvas_width s; canvas_height := canvas_height s;
     worldWidth := worldWidth s; worldHeight := worldHeight s;
     myPlayerId := myPlayerId s; players := players s;
     avatars := avatars s; viewportX := viewportX s;
     viewportY := viewportY s; keysPressed := v; isMoving := isMoving s;
     currentDirection := currentDirection s;
     movementLoopId := movementLoopId s; ws := ws s;
     reconnectAttempts := reconnectAttempts s;
     maxReconnectAttempts := maxReconnectAttempts s;
     frameHandles := frameHandles s; trace := trace s |}.

Definition set_isMoving (v : bool) (s : GameClient) : GameClient :=
  {| canvas_width := canvas_width s; canvas_height := canvas_height s;
     worldWidth := worldWidth s; worldHeight := worldHeight s;
     myPlayerId := myPlayerId s; players := players s;
     avatars := avatars s; viewportX := viewportX s;
     viewportY := viewportY s; keysPressed := keysPressed s;
     isMoving := v; currentDirection := currentDirection s;
     movementLoopId := movementLoopId s; ws := ws s;
     reconnectAttempts := reconnectAttempts s;
     maxReconnectAttempts := maxReconnectAttempts s;
     frameHandles := frameHandles s; trace := trace s |}.

Definition set_currentDirection (v : option string) (s : GameClient) : GameClient :=
  {| canvas_width := canvas_width s; canvas_height := canvas_height s;
     worldWidth := worldWidth s; worldHeight := worldHeight s;
     myPlayerId := myPlayerId s; players := players s;
     avatars := avatars s; viewportX := viewportX s;
     viewportY := viewportY s; keysPressed := keysPressed s;
     isMoving := isMoving s; currentDirection := v;
     movementLoopId := movementLoopId s; ws := ws s;
     reconnectAttempts := reconnectAttempts s;
     maxReconnectAttempts := maxReconnectAttempts s;
     frameHandles := frameHandles s; trace := trace s |}.

Definition set_movementLoopId (v : option nat) (s : GameClient) : GameClient :=
  {| canvas_width := canvas_width s; canvas_height := canvas_height s;
     worldWidth := worldWidth s; worldHeight := worldHeight s;
     myPlayerId := myPlayerId s; players := players s;
     avatars := avatars s; viewportX := viewportX s;
     viewportY := viewportY s; keysPressed := keysPressed s;
     isMoving := isMoving s; currentDirection := currentDirection s;
     movementLoopId := v; ws := ws s;
     reconnectAttempts := reconnectAttempts s;
     maxReconnectAttempts := maxReconnectAttempts s;
     frameHandles := frameHandles s; trace := trace s |}.

Definition set_ws (v : option ReadyState) (s : GameClient) : GameClient :=
  {| canvas_width := canvas_width s; canvas_height := canvas_height s;
     worldWidth := worldWidth s; worldHeight := worldHeight s;
     myPlayerId := myPlayerId s; players := players s;
     avatars := avatars s; viewportX := viewportX s;
     viewportY := viewportY s; keysPressed := keysPressed s;
     isMoving := isMoving s; currentDirection := currentDirection s;
     movementLoopId := movementLoopId s; ws := v;
     reconnectAttempts := reconnectAttempts s;
     maxReconnectAttempts := maxReconnectAttempts s;
     frameHandles := frameHandles s; trace := trace s |}.

Definition set_reconnectAttempts (v : nat) (s : GameClient) : GameClient :=
  {| canvas_width := canvas_width s; canvas_height := canvas_height s;
     worldWidth := worldWidth s; worldHeight := worldHeight s;
     myPlayerId := myPlayerId s; players := players s;
     avatars := avatars s; viewportX := viewportX s;
     viewportY := viewportY s; keysPressed := keysPressed s;
     isMoving := isMoving s; currentDirection := currentDirection s;
     movementLoopId := movementLoopId s; ws := ws s;
     reconnectAttempts := v;
     maxReconnectAttempts := maxReconnectAttempts s;
     frameHandles := frameHandles s; trace := trace s |}.

Definition set_frameHandles (v : nat) (s : GameClient) : GameClient :=
  {| canvas_width := canvas_width s; canvas_height := canvas_height s;
     worldWidth := worldWidth s; worldHeight := worldHeight s;
     myPlayerId := myPlayerId s; players := players s;
     avatars := avatars s; viewportX := viewportX s;
     viewportY := viewportY s; keysPressed := keysPressed s;
     isMoving := isMoving s; currentDirection := currentDirection s;
     movementLoopId := movementLoopId s; ws := ws s;
     reconnectAttempts := reconnectAttempts s;
     maxReconnectAttempts := maxReconnectAttempts s; frameHandles := v;
     trace := trace s |}.

(** Append one effect to the trace. *)
Definition emit (e : Effect) (s : GameClient) : GameClient :=
  {| canvas_width := canvas_width s; canvas_height := canvas_height s;
     worldWidth := worldWidth s; worldHeight := worldHeight s;
     myPlayerId := myPlayerId s; players := players s;
     avatars := avatars s; viewportX := viewportX s;
     viewportY := viewportY s; keysPressed := keysPressed s;
     isMoving := isMoving s; currentDirection := currentDirection s;
     movementLoopId := movementLoopId s; ws := ws s;
     reconnectAttempts := reconnectAttempts s;
     maxReconnectAttempts := maxReconnectAttempts s;
     frameHandles := frameHandles s; trace := trace s ++ [e] |}.

End Setters.

(** ** Transport session *)

(** [sendMessage]: transmit only while the socket is open, otherwise
    report the failure on the console. *)
Definition sendMessage (message : Intent) (s : GameClient) : GameClient :=
  match ws s with
  | Some OPEN => emit (WsSend message) s
  | _ => emit (SendRefused message) s
  end.

Definition joinGame (s : GameClient) : GameClient :=
  sendMessage (JoinGame "Tim") s.

Definition attemptReconnect (s : GameClient) : GameClient :=
  if (reconnectAttempts s <? maxReconnectAttempts s)%nat then
    let s1 := set_reconnectAttempts (S (reconnectAttempts s)) s in
    emit (SetTimeout (2000 * Z.of_nat (reconnectAttempts s1))) s1
  else
    emit (ConsoleError "Max reconnection attempts reached") s.

(** [connectToServer]; [created] tells whether [new WebSocket] returned a
    socket or threw, which the [catch] branch turns into a reconnection
    attempt. *)
Definition connectToServer (created : bool) (s : GameClient) : GameClient :=
  if created then set_ws (Some CONNECTING) s
  else attemptReconnect (emit (ConsoleError "Failed to connect to server") s).

Definition ws_onopen (s : GameClient) : GameClient :=
  joinGame (set_reconnectAttempts 0 (set_ws (Some OPEN) s)).

Definition ws_onclose (s : GameClient) : GameClient :=
  attemptReconnect (set_ws (Some CLOSED) s).

Definition ws_onerror (s : GameClient) : GameClient :=
  emit (ConsoleError "WebSocket error") s.

(** ** Camera *)

(** [!this.myPlayerId]: null and the empty string are both falsy. *)
Definition truthy_id (o : option string) : bool :=
  match o with
  | Some k => negb (String.eqb k "")
  | None => false
  end.

(** The record of the controlled player, when both guards of the two
    recentring methods let the call through.  An inherited property
    passes the guard as well and has neither [x] nor [y]. *)
Definition myPlayer (s : GameClient) : option Player :=
  if truthy_id (myPlayerId s) then
    match js_get (players s) (prop_key (myPlayerId s)) with
    | Own player => Some player
    | Inherited => Some no_fields
    | Missing => None
    end
  else None.

Definition centerViewportOnMyAvatar (s : GameClient) : GameClient :=
  match myPlayer s with
  | None => s
  | Some myPlayer =>
    let centerX := div (of_Z (canvas_width s)) (Num 2) in
    let centerY := div (of_Z (canvas_height s)) (Num 2) in
    let vx := sub (of_field (player_x myPlayer)) centerX in
    let vy := sub (of_field (player_y myPlayer)) centerY in
    set_viewport
      (max (Num 0) (min vx (sub (of_Z (worldWidth s)) (of_Z (canvas_width s)))))
      (max (Num 0) (min vy (sub (of_Z (worldHeight s)) (of_Z (canvas_height s)))))
      s
  end.

Definition updateViewportForMyAvatar (s : GameClient) : GameClient :=
  match myPlayer s with
  | None => s
  | Some myPlayer =>
    let centerX := div (of_Z (canvas_width s)) (Num 2) in
    let centerY := div (of_Z (canvas_height s)) (Num 2) in
    let desiredViewportX := sub (of_field (player_x myPlayer)) centerX in
    let desiredViewportY := sub (of_field (player_y myPlayer)) centerY in
    set_viewport
      (max (Num 0)
         (min desiredViewportX (sub (of_Z (worldWidth s)) (of_Z (canvas_width s)))))
      (max (Num 0)
         (min desiredViewportY (sub (of_Z (worldHeight s)) (of_Z (canvas_height s)))))
      s
  end.

Definition worldToScreen (s : GameClient) (worldX worldY : num) : num * num :=
  (sub worldX (viewportX s), sub worldY (viewportY s)).

Definition screenToWorld (s : GameClient) (screenX screenY : num) : num * num :=
  (add screenX (viewportX s), add screenY (viewportY s)).

Definition isPositionVisible (s : GameClient) (worldX worldY : num) : bool :=
  let screen := worldToScreen s worldX worldY in
  geb (fst screen) (Num (-50)) &&
  leb (fst screen) (add (of_Z (canvas_width s)) (Num 50)) &&
  geb (snd screen) (Num (-50)) &&
  leb (snd screen) (add (of_Z (canvas_height s)) (Num 50)).

(** ** Renderer *)

(** What the [onload] handler of one sprite image paints: the arguments of
    [drawImage], whether the context is mirrored, and the name label. *)
Record Sprite : Type := mkSprite {
  sprite_src : string;
  sprite_x : num;
  sprite_y : num;
  sprite_size : Q;
  sprite_mirrored : bool;
  label_text : option string;
  label_x : num;
  label_y : num
}.

Inductive DrawResult : Type :=
| Skipped
| ImageRequested (sp : Sprite)
| TypeError.

(** [frames[frameIndex]] on an array of image sources. *)
Definition frame_at (frames : list string) (frameIndex : jsval) : option string :=
  match frameIndex with
  | JInt n => if (0 <=? n)%Z then frames !! Z.to_nat n else None
  | _ => None
  end.

(** The key [avatar.frames] is read under: [east] for a player facing
    west, the facing itself otherwise. *)
Definition frames_key (direction : option Facing) : string :=
  match direction with
  | Some west => "east"
  | _ => prop_key (facing_name <$> direction)
  end.

Definition is_west (direction : option Facing) : bool :=
  match direction with
  | Some west => true
  | _ => false
  end.

Definition drawPlayer (s : GameClient) (player : Player) : DrawResult :=
  let screenPos :=
    worldToScreen s (of_field (player_x player)) (of_field (player_y player)) in
  match js_get (avatars s) (prop_key (player_avatar player)) with
  | Missing => Skipped
  | Inherited => TypeError
  | Own avatar =>
    let direction := player_facing player in
    let frameIndex := js_or (player_animationFrame player) (JInt 0) in
    match avatar_frames avatar !! frames_key direction with
    | None => TypeError
    | Some frames =>
      match frame_at frames frameIndex with
      | None => Skipped
      | Some frameData =>
        if String.eqb frameData "" then Skipped
        else
          let avatarSize := 32%Q in
          let x := sub (fst screenPos) (Num (avatarSize / 2)) in
          let y := sub (snd screenPos) (Num avatarSize) in
          ImageRequested
            {| sprite_src := frameData;
               sprite_x := if is_west direction
                           then sub (neg x) (Num avatarSize) else x;
               sprite_y := y;
               sprite_size := avatarSize;
               sprite_mirrored := is_west direction;
               label_text := player_username player;
               label_x := fst screenPos;
               label_y := sub (sub (snd screenPos) (Num avatarSize)) (Num 5) |}
      end
    end
  end.

(** One pass over the player records; [None] when a [drawPlayer] call
    threw, which ends the pass. *)
Fixpoint draw_each (s : GameClient) (ps : list Player) : option (list Sprite) :=
  match ps with
  | [] => Some []
  | player :: rest =>
    if isPositionVisible s (of_field (player_x player)) (of_field (player_y player))
    then
      match drawPlayer s player with
      | TypeError => None
      | Skipped => draw_each s rest
      | ImageRequested sp => cons sp <$> draw_each s rest
      end
    else draw_each s rest
  end.

(** [Object.values(this.players)]: the enumeration order of the map stands
    for the property order of the object. *)
Definition drawPlayers (s : GameClient) : option (list Sprite) :=
  draw_each s ((map_to_list (players s)).*2).

Definition draw (s : GameClient) : option (list Sprite) := drawPlayers s.

(** ** World state store *)

(** How a message handler ends: normally, or by the exception a draw
    raised after the state had been updated. *)
Inductive Completion : Type :=
| Returned (s : GameClient)
| Threw (s : GameClient).

Definition state_of (c : Completion) : GameClient :=
  match c with
  | Returned s | Threw s => s
  end.

Definition raised (c : Completion) : bool :=
  match c with
  | Returned _ => false
  | Threw _ => true
  end.

Definition then_draw (s : GameClient) : Completion :=
  match draw s with
  | Some _ => Returned s
  | None => Threw s
  end.

Definition or_else {A : Type} (new old : option A) : option A :=
  match new with
  | Some v => Some v
  | None => old
  end.

(** [{ ...target, ...source }] on two player records. *)
Definition assign (target source : Player) : Player :=
  {| player_id := or_else (player_id source) (player_id target);
     player_username := or_else (player_username source) (player_username target);
     player_x := or_else (player_x source) (player_x target);
     player_y := or_else (player_y source) (player_y target);
     player_facing := or_else (player_facing source) (player_facing target);
     player_avatar := or_else (player_avatar source) (player_avatar target);
     player_animationFrame :=
       match player_animationFrame source with
       | JUndefined => player_animationFrame target
       | v => v
       end |}.

(** [{ ...this.players[playerId], ...patch }]: spreading [undefined]
    contributes no field. *)
Definition spread (existing : option Player) (patch : Player) : Player :=
  assign (default no_fields existing) patch.

(** The [forEach] over the ids of a movement patch. *)
Definition mergePlayers (patch store : gmap string Player) : gmap string Player :=
  map_fold (fun playerId fields acc => <[playerId := spread (acc !! playerId) fields]> acc)
           store patch.

Definition handleJoinGame (data : JoinAck) (s : GameClient) : Completion :=
  if ack_success data then
    let s1 := set_myPlayerId (ack_playerId data) s in
    let s2 := set_players (ack_players data) s1 in
    let s3 := set_avatars (ack_avatars data) s2 in
    then_draw (centerViewportOnMyAvatar s3)
  else
    Returned (emit (ConsoleError "Failed to join game") s).

Definition handlePlayersMoved (patch : gmap string Player) (s : GameClient)
  : Completion :=
  let s1 := set_players (mergePlayers patch (players s)) s in
  let s2 :=
    if truthy_id (myPlayerId s1)
       && match js_get patch (prop_key (myPlayerId s1)) with
          | Missing => false
          | _ => true
          end
    then updateViewportForMyAvatar s1
    else s1 in
  then_draw s2.

Definition handlePlayerJoined (player : Player) (avatar : Avatar) (s : GameClient)
  : Completion :=
  let s1 := set_players (<[prop_key (player_id player) := player]> (players s)) s in
  let s2 := set_avatars (<[avatar_name avatar := avatar]> (avatars s1)) s1 in
  then_draw s2.

Definition handlePlayerLeft (playerId : string) (s : GameClient) : Completion :=
  then_draw (set_players (delete playerId (players s)) s).

Definition handleServerMessage (data : ServerMessage) (s : GameClient) : Completion :=
  match data with
  | join_game d => handleJoinGame d s
  | players_moved patch => handlePlayersMoved patch s
  | player_joined player avatar => handlePlayerJoined player avatar s
  | player_left playerId => handlePlayerLeft playerId s
  | unknown_action _ => Returned s
  end.

(** ** Input and movement controller *)

Definition movementKeys : list string :=
  ["ArrowUp"; "ArrowDown"; "ArrowLeft"; "ArrowRight";
   "w"; "W"; "s"; "S"; "a"; "A"; "d"; "D"].

(** [Array.prototype.includes] on strings. *)
Definition includes (l : list string) (key : string) : bool :=
  existsb (String.eqb key) l.

Arguments includes : simpl never.

(** [keyMap[key]]; [None] is [undefined].  The keys reaching this lookup
    are held keys, hence members of [movementKeys]. *)
Definition getDirectionFromKey (key : string) : option string :=
  if String.eqb key "ArrowUp" then Some "up"
  else if String.eqb key "ArrowDown" then Some "down"
  else if String.eqb key "ArrowLeft" then Some "left"
  else if String.eqb key "ArrowRight" then Some "right"
  else if String.eqb key "w" then Some "up"
  else if String.eqb key "s" then Some "down"
  else if String.eqb key "a" then Some "left"
  else if String.eqb key "d" then Some "right"
  else None.

Definition sendMoveCommand (direction : string) (s : GameClient) : GameClient :=
  set_isMoving true (sendMessage (Move direction) s).

Definition sendStopCommand (s : GameClient) : GameClient :=
  sendMessage Stop s.

(** [this.movementLoopId = requestAnimationFrame(...)]: the browser hands
    out a fresh non-zero handle. *)
Definition requestMovementFrame (s : GameClient) : GameClient :=
  let handle := S (frameHandles s) in
  emit (RequestFrame handle)
    (set_movementLoopId (Some handle) (set_frameHandles handle s)).

Definition startMovement (s : GameClient) : GameClient :=
  match movementLoopId s with
  | Some _ => s
  | None => requestMovementFrame s
  end.

Definition stopMovement (s : GameClient) : GameClient :=
  let s1 :=
    match movementLoopId s with
    | Some handle => set_movementLoopId None (emit (CancelFrame handle) s)
    | None => s
    end in
  sendStopCommand (set_currentDirection None (set_isMoving false s1)).

Definition movementLoop (s : GameClient) : GameClient :=
  match keysPressed s with
  | [] => stopMovement s
  | firstKey :: _ =>
    let s1 :=
      match getDirectionFromKey firstKey with
      | Some direction =>
        if bool_decide (Some direction = currentDirection s) then s
        else sendMoveCommand direction (set_currentDirection (Some direction) s)
      | None => s
      end in
    requestMovementFrame s1
  end.

(** The [keydown] listener.  [keysPressed] is an object whose own keys are
    enumerated in insertion order; it is kept as the list of those keys. *)
Definition keydown (key : string) (s : GameClient) : GameClient :=
  if includes movementKeys key then
    if includes (keysPressed s) key then s
    else startMovement (set_keysPressed (keysPressed s ++ [key]) s)
  else s.

(** The [keyup] listener; [delete] drops the key from the enumeration. *)
Definition keyup (key : string) (s : GameClient) : GameClient :=
  if includes movementKeys key then
    let s1 :=
      set_keysPressed (filter (fun k => k ≠ key) (keysPressed s)) s in
    match keysPressed s1 with
    | [] => stopMovement s1
    | _ :: _ => s1
    end
  else s.

(** The animation-frame callback runs only while its request is pending. *)
Definition animationFrame (s : GameClient) : GameClient :=
  match movementLoopId s with
  | Some _ => movementLoop s
  | None => s
  end.

Inductive InputEvent : Type :=
| KeyDown (key : string)
| KeyUp (key : string)
| Frame.

Definition input_step (s : GameClient) (e : InputEvent) : GameClient :=
  match e with
  | KeyDown key => keydown key s
  | KeyUp key => keyup key s
  | Frame => animationFrame s
  end.

Definition input_run (s : GameClient) (es : list InputEvent) : GameClient :=
  foldl input_step s es.

(** The socket and timer events the transport session reacts to. *)
Inductive SessionEvent : Type :=
| Opened
| Closed
| Errored
| TimerFired (created : bool)
| Received (data : ServerMessage).

Definition session_step (s : GameClient) (e : SessionEvent) : GameClient :=
  match e with
  | Opened => ws_onopen s
  | Closed => ws_onclose s
  | Errored => ws_onerror s
  | TimerFired created => connectToServer created s
  | Received data => state_of (handleServerMessage data s)
  end.

Definition session_run (s : GameClient) (es : list SessionEvent) : GameClient :=
  foldl session_step s es.

(** The reconnection delays a trace holds, oldest first. *)
Definition scheduled (t : list Effect) : list Z :=
  omap (fun e => match e with SetTimeout d => Some d | _ => None end) t.

(** The [move] directions handed to the socket, oldest first. *)
Definition moves_sent (t : list Effect) : list string :=
  omap (fun e => match e with WsSend (Move d) => Some d | _ => None end) t.

(** Every intent [sendMessage] was called with, transmitted or refused. *)
Definition intents (t : list Effect) : list Intent :=
  omap (fun e => match e with
                 | WsSend m | SendRefused m => Some m
                 | _ => None
                 end) t.

(** ** Double precision

    Where a statement depends on how an addition or subtraction is
    rounded, numbers are the doubles of the code: a finite double is the
    rational it denotes, and every operation rounds its exact result to
    the nearest double, the one with an even significand of two equally
    near.  The two zeros are one value here; they are equal under [==]
    and the client never divides by one. *)

Module Double.

Inductive double : Type :=
| DNaN
| DInf (negative : bool)
| DNum (q : Q).

(** [floor (log2 (a / d))] for positive [a] and [d]. *)
Definition floor_log2 (a d : Z) : Z :=
  let e0 := (Z.log2 a - Z.log2 d)%Z in
  let reaches :=
    if (0 <=? e0)%Z then (d * 2 ^ e0 <=? a)%Z else (d <=? a * 2 ^ (- e0))%Z in
  if reaches then e0 else (e0 - 1)%Z.

(** The integer nearest to [n / d], the even one of two equally near. *)
Definition nearest_even (n d : Z) : Z :=
  let m := (n / d)%Z in
  let r := (n mod d)%Z in
  match (2 * r ?= d)%Z with
  | Lt => m
  | Gt => (m + 1)%Z
  | Eq => if Z.even m then m else (m + 1)%Z
  end.

(** Rounding to binary64: 53 bits of significand, the smallest unit
    [2 ^ -1074], and infinity from [2 ^ 1024] on. *)
Definition round64 (q : Q) : double :=
  let q' := Qred q in
  let n := Qnum q' in
  let d := Zpos (Qden q') in
  if (n =? 0)%Z then DNum 0
  else
    let a := Z.abs n in
    let e := floor_log2 a d in
    let u := Z.max (e - 52) (-1074) in
    let m :=
      if (0 <=? u)%Z then nearest_even a (d * 2 ^ u)
      else nearest_even (a * 2 ^ (- u)) d in
    if (0 <=? u)%Z && (2 ^ 1024 <=? m * 2 ^ u)%Z then DInf (n <? 0)%Z
    else
      let magnitude :=
        if (0 <=? u)%Z then inject_Z (m * 2 ^ u)
        else Qmake m (Z.to_pos (2 ^ (- u))) in
      DNum (Qred (if (n <? 0)%Z then - magnitude else magnitude)).

Definition opp (a : double) : double :=
  match a with
  | DNaN => DNaN
  | DInf negative => DInf (negb negative)
  | DNum q => DNum (- q)
  end.

(** [a + b] *)
Definition add (a b : double) : double :=
  match a, b with
  | DNum p, DNum q => round64 (p + q)
  | DNaN, _ | _, DNaN => DNaN
  | DInf s, DInf s' => if Bool.eqb s s' then DInf s else DNaN
  | DInf s, DNum _ | DNum _, DInf s => DInf s
  end.

(** [a - b], which is [a + (-b)] *)
Definition sub (a b : double) : double := add a (opp b).

(** [a == b] on numbers *)
Definition eq (a b : double) : Prop :=
  match a, b with
  | DNum p, DNum q => (p == q)%Q
  | DInf s, DInf s' => s = s'
  | _, _ => False
  end.

(** The rational [q] is a double: rounding leaves it as it is. *)
Definition exact (q : Q) : Prop := eq (round64 q) (DNum q).

(** [worldToScreen] and [screenToWorld] on doubles, with the two fields
    of [this] they read as arguments. *)
Definition worldToScreen (viewportX viewportY worldX worldY : double)
  : double * double :=
  (sub worldX viewportX, sub worldY viewportY).

Definition screenToWorld (viewportX viewportY screenX screenY : double)
  : double * double :=
  (add screenX viewportX, add screenY viewportY).


End Double.

(** ** Definitions the statements below are phrased with *)

(** Clamping [v] into [[lo, hi]], where the lower bound wins when the
    interval is empty. *)
Definition clamp (lo hi v : Q) : Q :=
  if Qlt_le_dec hi lo then lo
  else if Qlt_le_dec v lo then lo
  else if Qlt_le_dec hi v then hi
  else v.

(** The direction the movement loop derives: that of the first-inserted
    key still held. *)
Definition activeDirection (s : GameClient) : option string :=
  head (keysPressed s) ≫= getDirectionFromKey.

(** The held-key set alone, as the two key listeners update it. *)
Definition held_step (keys : list string) (e : InputEvent) : list string :=
  match e with
  | KeyDown key =>
    if includes movementKeys key && negb (includes keys key)
    then keys ++ [key] else keys
  | KeyUp key =>
    if includes movementKeys key then filter (fun k => k ≠ key) keys else keys
  | Frame => keys
  end.

(** Keys remain held: the held set is never empty along the run. *)
Fixpoint held_throughout (keys : list string) (es : list InputEvent) : bool :=
  match keys with
  | [] => false
  | _ :: _ =>
    match es with
    | [] => true
    | e :: rest => held_throughout (held_step keys e) rest
    end
  end.

(** The direction derived on each movement-loop frame of a run. *)
Fixpoint frame_directions (keys : list string) (es : list InputEvent)
  : list (option string) :=
  match es with
  | [] => []
  | Frame :: rest =>
    (head keys ≫= getDirectionFromKey) :: frame_directions keys rest
  | e :: rest => frame_directions (held_step keys e) rest
  end.

(** Edge-triggered sending, as the specification words it: a direction is
    sent on a frame exactly when it differs from the last one sent. *)
Fixpoint edge_triggered (last : option string) (ds : list (option string))
  : list string :=
  match ds with
  | [] => []
  | None :: rest => edge_triggered last rest
  | Some d :: rest =>
    if bool_decide (Some d = last) then edge_triggered last rest
    else d :: edge_triggered (Some d) rest
  end.

(** The last direction sent: the latest [move] intent not followed by a
    [stop]. *)
Definition last_direction (ms : list Intent) : option string :=
  foldl (fun last m =>
           match m with
           | Move d => Some d
           | Stop => None
           | JoinGame _ => last
           end) None ms.

(** The delays of reconnection attempts number [from + 1] to [to]. *)
Definition backoff (from to : nat) : list Z :=
  (fun attempt => (2000 * Z.of_nat attempt)%Z) <$> seq (S from) (to - from).

(** The directions sent change at every step: each differs from the one
    sent before it. *)
Fixpoint changes (last : option string) (sent : list string) : Prop :=
  match sent with
  | [] => True
  | d :: rest => Some d <> last /\ changes (Some d) rest
  end.

(** ** The client as a whole *)

(** The [resize] listener of [setupCanvas]. *)
Definition resize (w h : Z) (s : GameClient) : Completion :=
  then_draw (centerViewportOnMyAvatar (set_canvas w h s)).

(** [init]: the canvas takes the window size and the first connection is
    opened; the listeners it installs are the steps below. *)
Definition init (w h : Z) (created : bool) : GameClient :=
  connectToServer created (constructed w h).

Inductive Event : Type :=
| Input (e : InputEvent)
| Session (e : SessionEvent)
| Resized (w h : Z).

Definition step (s : GameClient) (e : Event) : GameClient :=
  match e with
  | Input e => input_step s e
  | Session e => session_step s e
  | Resized w h => state_of (resize w h s)
  end.

Definition run (s : GameClient) (es : list Event) : GameClient :=
  foldl step s es.

(** What holds of the movement fields in every state the client reaches:
    the loop is pending exactly while a key is held, and the current
    direction is the last direction sent. *)
Definition movement_consistent (s : GameClient) : Prop :=
  (is_Some (movementLoopId s) <-> keysPressed s <> [])
  /\ currentDirection s = last_direction (intents (trace s)).

Definition with_animationFrame (v : jsval) (p : Player) : Player :=
  {| player_id := player_id p; player_username := player_username p;
     player_x := player_x p; player_y := player_y p;
     player_facing := player_facing p; player_avatar := player_avatar p;
     player_animationFrame := v |}.

(** ** Concrete data used in the examples *)

Definition knight : Avatar :=
  {| avatar_name := "knight";
     avatar_frames :=
       {[ "north" := ["n0.png"; "n1.png"];
          "south" := ["s0.png"; "s1.png"];
          "east" := ["e0.png"; "e1.png"] ]} |}.


Definition alice : Player :=
  {| player_id := Some "p1"; player_username := Some "alice";
     player_x := Some 100%Q; player_y := Some 100%Q;
     player_facing := Some south; player_avatar := Some "knight";
     player_animationFrame := JInt 1 |}.

(** A movement patch entry: position, facing and frame only. *)
Definition moved_fields : Player :=
  {| player_id := None; player_username := None;
     player_x := Some 5%Q; player_y := Some 7%Q;
     player_facing := Some east; player_avatar := None;
     player_animationFrame := JInt 2 |}.

(** A client that has joined as [alice], with an open socket. *)
Definition joined : GameClient :=
  set_ws (Some OPEN)
    (set_myPlayerId (Some "p1")
       (set_players {[ "p1" := alice ]}
          (set_avatars {[ "knight" := knight ]} (constructed 800 600)))).

(** ** More example data, and the relations the invariants are stated with *)

(** A player far outside the world, on a client whose canvas is wider
    than the world and lower than it. *)
Definition stray : GameClient :=
  set_canvas 3000 600
    (set_players
       {[ "p1" := mkPlayer (Some "p1") (Some "alice") (Some (-500)%Q)
                    (Some 9000%Q) (Some south) (Some "knight") JUndefined ]}
       joined).

(** A skin that came without frames for the north facing. *)
Definition squire : Avatar :=
  {| avatar_name := "squire";
     avatar_frames := {[ "south" := ["s0.png"]; "east" := ["e0.png"] ]} |}.

Definition bob : Player :=
  {| player_id := Some "p2"; player_username := Some "bob";
     player_x := Some 120%Q; player_y := Some 80%Q;
     player_facing := Some north; player_avatar := Some "squire";
     player_animationFrame := JInt 0 |}.

(** A record made from a movement patch alone, to which a later patch
    added an avatar reference: it has no [animationFrame]. *)
Definition partial_record : Player :=
  {| player_id := None; player_username := None;
     player_x := Some 5%Q; player_y := Some 7%Q;
     player_facing := Some west; player_avatar := Some "knight";
     player_animationFrame := JUndefined |}.

(** What a sequence of session events without a successful open leaves
    behind: the counter only grows, never beyond the maximum, and the
    timers set are exactly those of the attempts counted. *)
Definition retry_progress (s s' : GameClient) : Prop :=
  maxReconnectAttempts s' = maxReconnectAttempts s
  /\ (reconnectAttempts s <= reconnectAttempts s')%nat
  /\ (reconnectAttempts s' <= maxReconnectAttempts s)%nat
  /\ scheduled (trace s')
     = scheduled (trace s) ++ backoff (reconnectAttempts s) (reconnectAttempts s').

(** The state fields a redraw-only update leaves alone. *)
Definition same_session (s s' : GameClient) : Prop :=
  maxReconnectAttempts s' = maxReconnectAttempts s
  /\ reconnectAttempts s' = reconnectAttempts s
  /\ scheduled (trace s') = scheduled (trace s).

(** Updates that leave the movement fields and the intents alone. *)
Definition same_movement (s s' : GameClient) : Prop :=
  movementLoopId s' = movementLoopId s
  /\ keysPressed s' = keysPressed s
  /\ currentDirection s' = currentDirection s
  /\ intents (trace s') = intents (trace s).

(** ** Definitions for the further properties *)

(** Two movement patches folded into one: where both name an id, the
    fields of the later patch are laid over those of the earlier one. *)
Definition compose_patches (first second : gmap string Player)
  : gmap string Player :=
  union_with (fun a b => Some (assign a b)) first second.

(** What was actually handed to [ws.send]. *)
Definition transmitted (t : list Effect) : list Intent :=
  omap (fun e => match e with WsSend m => Some m | _ => None end) t.

Definition with_facing (f : Facing) (p : Player) : Player :=
  {| player_id := player_id p; player_username := player_username p;
     player_x := player_x p; player_y := player_y p;
     player_facing := Some f; player_avatar := player_avatar p;
     player_animationFrame := player_animationFrame p |}.


(** [drawWorld]: the destination rectangle of the [drawImage] call that
    paints the map, as (x, y, width, height).  [init] has set
    [worldImage] before any draw, so the guard on it lets the call
    through. *)
Definition drawWorld (s : GameClient) : num * num * Z * Z :=
  (neg (viewportX s), neg (viewportY s), worldWidth s, worldHeight s).

(** The held keys are what the listeners can have inserted: movement
    keys, each once. *)
Definition held_keys_valid (keys : list string) : Prop :=
  NoDup keys /\ Forall (fun key => includes movementKeys key = true) keys.

(** An intent the protocol knows: a [move] carries one of the four
    canonical directions. *)
Definition canonical_intent (m : Intent) : Prop :=
  match m with
  | Move d => d ∈ ["up"; "down"; "left"; "right"]
  | _ => True
  end.

(** ** The browser's side of the animation frames

    The browser keeps the requests made with [requestAnimationFrame] until
    it runs their callback or they are cancelled.  Here it is next to the
    client: a frame runs only when a request is waiting, and the requests
    follow what the client asked for in its trace. *)

Record Browser : Type := mkBrowser {
  client : GameClient;
  frame_requests : list nat
}.

Definition apply_effect (requests : list nat) (e : Effect) : list nat :=
  match e with
  | RequestFrame handle => requests ++ [handle]
  | CancelFrame handle =>
    List.filter (fun request => negb (Nat.eqb request handle)) requests
  | _ => requests
  end.

(** The effects a step has added to the trace. *)
Definition new_effects (before after : GameClient) : list Effect :=
  drop (length (trace before)) (trace after).

Definition browser_step (b : Browser) (e : Event) : Browser :=
  match e with
  | Input Frame =>
    match frame_requests b with
    | [] => b
    | _ :: waiting =>
      let s' := movementLoop (client b) in
      mkBrowser s' (foldl apply_effect waiting (new_effects (client b) s'))
    end
  | _ =>
    let s' := step (client b) e in
    mkBrowser s' (foldl apply_effect (frame_requests b) (new_effects (client b) s'))
  end.

Definition boot (w h : Z) (created : bool) : Browser :=
  mkBrowser (init w h created)
    (foldl apply_effect [] (trace (init w h created))).

Definition browser_run (b : Browser) (es : list Event) : Browser :=
  foldl browser_step b es.

(** * Properties *)

(** An own property is what the lookup finds, whatever the key. *)
Lemma js_get_own {A : Type} (object : gmap string A) (key : string) (a : A) :
  object !! key = Some a -> js_get object key = Own a.
Proof. intros H. unfold js_get. by rewrite H. Qed.

Lemma js_get_missing {A : Type} (object : gmap string A) (key : string) :
  object !! key = None -> inherited key = false -> js_get object key = Missing.
Proof. intros H Hi. unfold js_get. by rewrite H, Hi. Qed.

(** ** World state store *)



(** Fields the patch carries win, the others are kept: last write wins,
    field by field. *)
Lemma spread_present_x (old fields : Player) :
  player_x (spread (Some old) fields)
  = or_else (player_x fields) (player_x old).
Proof. reflexivity. Qed.

(** What the store holds under each id once [forEach] has run. *)
Lemma mergePlayers_lookup (patch store : gmap string Player) (playerId : string) :
  mergePlayers patch store !! playerId
  = match patch !! playerId with
    | Some fields => Some (spread (store !! playerId) fields)
    | None => store !! playerId
    end.
Proof.
  unfold mergePlayers. revert playerId.
  refine (map_fold_weak_ind
            (fun acc m => forall k, acc !! k
               = match m !! k with
                 | Some fields => Some (spread (store !! k) fields)
                 | None => store !! k
                 end) _ _ _ _ patch).
  - intros k. by rewrite lookup_empty.
  - intros i fields m acc Hfresh IH k.
    destruct (decide (i = k)) as [->|Hne].
    + rewrite !lookup_insert_eq. f_equal. f_equal.
      by rewrite IH, Hfresh.
    + rewrite !lookup_insert_ne by done. apply IH.
Qed.

Lemma updateViewport_players (s : GameClient) :
  players (updateViewportForMyAvatar s) = players s.
Proof. unfold updateViewportForMyAvatar. by destruct (myPlayer s). Qed.


Lemma state_of_then_draw (s : GameClient) : state_of (then_draw s) = s.
Proof. unfold then_draw. by destruct (draw s). Qed.

Lemma handlePlayersMoved_players (patch : gmap string Player) (s : GameClient) :
  players (state_of (handlePlayersMoved patch s))
  = mergePlayers patch (players s).
Proof.
  unfold handlePlayersMoved. rewrite state_of_then_draw.
  case_match; [by rewrite updateViewport_players|done].
Qed.




Lemma handlePlayerJoined_state (player : Player) (avatar : Avatar) (s : GameClient) :
  state_of (handlePlayerJoined player avatar s)
  = set_avatars (<[avatar_name avatar := avatar]> (avatars s))
      (set_players (<[prop_key (player_id player) := player]> (players s)) s).
Proof. unfold handlePlayerJoined. by rewrite state_of_then_draw. Qed.



(** ** Camera *)

(** [Math.max(0, Math.min(v, hi))] is the clamp of [v] into [[0, hi]] with
    the lower bound winning on an empty interval. *)
Lemma max_min_clamp (hi v : Q) : (Qmax 0 (Qmin v hi) == clamp 0 hi v)%Q.
Proof.
  unfold clamp.
  destruct (Qlt_le_dec hi 0) as [Hhi|Hhi].
  - apply Q.max_l. pose proof (Q.le_min_r v hi). lra.
  - destruct (Qlt_le_dec v 0) as [Hv|Hv].
    + apply Q.max_l. pose proof (Q.le_min_l v hi). lra.
    + destruct (Qlt_le_dec hi v) as [Hv'|Hv'].
      * rewrite Q.min_r by by apply Qlt_le_weak. by apply Q.max_r.
      * rewrite Q.min_l by done. by apply Q.max_r.
Qed.

Lemma clamp_within (lo hi v : Q) :
  (lo <= hi)%Q -> (lo <= clamp lo hi v)%Q /\ (clamp lo hi v <= hi)%Q.
Proof.
  intros Hle. unfold clamp.
  destruct (Qlt_le_dec hi lo) as [Hhi|Hhi].
  - exfalso. apply (Qlt_irrefl hi). eapply Qlt_le_trans; eassumption.
  - destruct (Qlt_le_dec v lo) as [Hv|Hv].
    + split; [apply Qle_refl|done].
    + destruct (Qlt_le_dec hi v) as [Hv'|Hv']; split;
        try done; apply Qle_refl.
Qed.

Lemma clamp_empty_interval (lo hi v : Q) : (hi < lo)%Q -> clamp lo hi v = lo.
Proof.
  intros Hlt. unfold clamp. destruct (Qlt_le_dec hi lo) as [_|Hhi]; [done|].
  exfalso. apply (Qlt_irrefl hi). eapply Qlt_le_trans; eassumption.
Qed.

(** The hard and the soft recentre compute the same offset. *)
Lemma soft_recenter_is_hard_recenter (s : GameClient) :
  updateViewportForMyAvatar s = centerViewportOnMyAvatar s.
Proof. reflexivity. Qed.

(** Without a controlled player in the mirror a recentre changes nothing. *)
Lemma recenter_without_player (s : GameClient) :
  myPlayer s = None -> centerViewportOnMyAvatar s = s.
Proof. intros H. unfold centerViewportOnMyAvatar. by rewrite H. Qed.

(** C7: after a hard or a soft recentre on a controlled player at any
    position [(x, y)], inside the world or not, each axis of the viewport
    offset is the player position minus half the viewport size, clamped
    into [[0, worldSize - viewportSize]]; the offset lies in that interval
    when it is not empty and is 0 when the world is smaller than the
    viewport. *)
Theorem recenter_offset_clamped
    (s : GameClient) (playerId : string) (p : Player) (x y : Q) :
  myPlayerId s = Some playerId ->
  playerId <> "" ->
  players s !! playerId = Some p ->
  player_x p = Some x ->
  player_y p = Some y ->
  let W := inject_Z (worldWidth s) in
  let H := inject_Z (worldHeight s) in
  let w := inject_Z (canvas_width s) in
  let h := inject_Z (canvas_height s) in
  forall s' : GameClient,
    s' = centerViewportOnMyAvatar s \/ s' = updateViewportForMyAvatar s ->
    exists vx vy : Q,
      viewportX s' = Num vx /\ viewportY s' = Num vy
      /\ (vx == clamp 0 (W - w) (x - w / 2))%Q
      /\ (vy == clamp 0 (H - h) (y - h / 2))%Q
      /\ ((w <= W)%Q -> (0 <= vx)%Q /\ (vx <= W - w)%Q)
      /\ ((h <= H)%Q -> (0 <= vy)%Q /\ (vy <= H - h)%Q)
      /\ ((W < w)%Q -> (vx == 0)%Q)
      /\ ((H < h)%Q -> (vy == 0)%Q).
Proof.
  intros Hme Hne Hp Hx Hy W H w h s' Hs'.
  assert (Hmy : myPlayer s = Some p).
  { unfold myPlayer. rewrite Hme. simpl.
    destruct (String.eqb_spec playerId ""); [done|]. simpl.
    by rewrite (js_get_own _ _ _ Hp). }
  assert (Hs : s' = centerViewportOnMyAvatar s)
    by (destruct Hs' as [->| ->]; reflexivity).
  subst s'. unfold centerViewportOnMyAvatar. rewrite Hmy, Hx, Hy. simpl.
  fold W H w h.
  eexists _, _. split; [reflexivity|]. split; [reflexivity|].
  pose proof (max_min_clamp (W - w) (x - w / 2)) as Ex.
  pose proof (max_min_clamp (H - h) (y - h / 2)) as Ey.
  split; [exact Ex|]. split; [exact Ey|].
  repeat split.
  - rewrite Ex. apply clamp_within. lra.
  - rewrite Ex. apply clamp_within. lra.
  - rewrite Ey. apply clamp_within. lra.
  - rewrite Ey. apply clamp_within. lra.
  - intros Hlt. rewrite Ex, clamp_empty_interval; [reflexivity|lra].
  - intros Hlt. rewrite Ey, clamp_empty_interval; [reflexivity|lra].
Qed.

Lemma recenter_offset_clamped_witness :
  viewportX (centerViewportOnMyAvatar stray) = Num 0
  /\ exists vy : Q,
       viewportY (centerViewportOnMyAvatar stray) = Num vy /\ (vy == 1448)%Q.
Proof.
  destruct (recenter_offset_clamped stray "p1"
              (mkPlayer (Some "p1") (Some "alice") (Some (-500)%Q)
                 (Some 9000%Q) (Some south) (Some "knight") JUndefined)
              (-500)%Q 9000%Q eq_refl ltac:(discriminate) eq_refl eq_refl eq_refl
              (centerViewportOnMyAvatar stray) (or_introl eq_refl))
    as (vx & vy & Hvx & Hvy & _ & Ey & _).
  split; [reflexivity|].
  exists vy. split; [exact Hvy|]. rewrite Ey. reflexivity.
Defined.














(** ** Renderer *)

(** A player whose avatar is not in the avatar mapping is skipped. *)
Lemma drawPlayer_missing_avatar (s : GameClient) (player : Player) :
  avatars s !! prop_key (player_avatar player) = None ->
  inherited (prop_key (player_avatar player)) = false ->
  drawPlayer s player = Skipped.
Proof. intros H Hi. unfold drawPlayer. by rewrite js_get_missing. Qed.

(** A frame index the sequence does not reach is skipped. *)
Lemma drawPlayer_missing_frame
    (s : GameClient) (player : Player) (avatar : Avatar) (frames : list string) :
  avatars s !! prop_key (player_avatar player) = Some avatar ->
  avatar_frames avatar !! frames_key (player_facing player) = Some frames ->
  frame_at frames (js_or (player_animationFrame player) (JInt 0)) = None ->
  drawPlayer s player = Skipped.
Proof.
  intros Ha Hf Hi. unfold drawPlayer. by rewrite (js_get_own _ _ _ Ha), Hf, Hi.
Qed.

(** The frame set is indexed without a guard: when the avatar has no frame
    sequence under the key of the player's facing, the draw throws. *)
Lemma drawPlayer_missing_frame_set
    (s : GameClient) (player : Player) (avatar : Avatar) :
  avatars s !! prop_key (player_avatar player) = Some avatar ->
  avatar_frames avatar !! frames_key (player_facing player) = None ->
  drawPlayer s player = TypeError.
Proof. intros Ha Hf. unfold drawPlayer. by rewrite (js_get_own _ _ _ Ha), Hf. Qed.

(** C4 does not hold of the code: the draw of a player whose avatar is
    known but has no frame set for the player's facing is not a silent
    skip.  [drawPlayer] throws, the draw pass ends there, and the message
    handler that asked for the redraw ends by that exception. *)
Theorem drawPlayer_throws_on_missing_frame_set :
  let s := set_avatars (<["squire" := squire]> (avatars joined)) joined in
  avatar_frames squire !! "north" = None
  /\ drawPlayer s bob = TypeError
  /\ raised (handlePlayerJoined bob squire joined) = true.
Proof. vm_compute. done. Qed.

Lemma frame_at_falsy_index (frames : list string) (v : jsval) :
  truthy v = false -> frame_at frames (js_or v (JInt 0)) = frames !! 0%nat.
Proof. intros Hv. unfold js_or. by rewrite Hv. Qed.

(** C10: a player record whose [animationFrame] is absent or otherwise
    falsy is drawn exactly as if the field were 0, and when the facing's
    frame sequence starts with an image source the player is not skipped:
    the image requested is that first frame. *)
Theorem drawPlayer_falsy_frame_is_first_frame
    (s : GameClient) (player : Player) (avatar : Avatar)
    (first : string) (others : list string) :
  truthy (player_animationFrame player) = false ->
  avatars s !! prop_key (player_avatar player) = Some avatar ->
  avatar_frames avatar !! frames_key (player_facing player)
  = Some (first :: others) ->
  first <> "" ->
  drawPlayer s player = drawPlayer s (with_animationFrame (JInt 0) player)
  /\ exists sp : Sprite,
       drawPlayer s player = ImageRequested sp /\ sprite_src sp = first.
Proof.
  intros Hv Ha Hf Hne. split.
  - unfold drawPlayer. simpl. unfold js_or at 1. by rewrite Hv.
  - unfold drawPlayer.
    rewrite (js_get_own _ _ _ Ha), Hf, frame_at_falsy_index by done. simpl.
    destruct (String.eqb_spec first ""); [done|]. eexists. by split.
Qed.

Lemma drawPlayer_falsy_frame_is_first_frame_witness :
  truthy (player_animationFrame partial_record) = false
  /\ exists sp : Sprite,
       drawPlayer joined partial_record = ImageRequested sp
       /\ sprite_src sp = "e0.png".
Proof.
  split; [reflexivity|].
  refine (proj2 (drawPlayer_falsy_frame_is_first_frame joined partial_record
                   knight "e0.png" ["e1.png"] _ _ _ _)).
  - reflexivity.
  - reflexivity.
  - reflexivity.
  - discriminate.
Defined.

(** ** Transport session *)

Lemma scheduled_app (t u : list Effect) :
  scheduled (t ++ u) = scheduled t ++ scheduled u.
Proof. unfold scheduled. apply omap_app. Qed.

Lemma backoff_nil (n : nat) : backoff n n = [].
Proof. unfold backoff. by rewrite Nat.sub_diag. Qed.

Lemma backoff_snoc (from to : nat) :
  (from <= to)%nat ->
  backoff from (S to) = backoff from to ++ [(2000 * Z.of_nat (S to))%Z].
Proof.
  intros Hle. unfold backoff.
  replace (S to - from)%nat with (S (to - from)) by lia.
  rewrite seq_S, fmap_app. cbn [fmap list_fmap]. do 4 f_equal. lia.
Qed.

(** One call of [attemptReconnect]: below the maximum the counter goes up
    by one and one timer is set, with the new counter times 2000 ms as its
    delay; at the maximum nothing is scheduled. *)
Lemma attemptReconnect_step (s : GameClient) :
  let n := reconnectAttempts s in
  let s' := attemptReconnect s in
  maxReconnectAttempts s' = maxReconnectAttempts s
  /\ reconnectAttempts s'
     = (if (n <? maxReconnectAttempts s)%nat then S n else n)
  /\ scheduled (trace s')
     = scheduled (trace s)
       ++ (if (n <? maxReconnectAttempts s)%nat
           then [(2000 * Z.of_nat (S n))%Z] else []).
Proof.
  simpl. unfold attemptReconnect.
  destruct (reconnectAttempts s <? maxReconnectAttempts s)%nat; simpl;
    rewrite scheduled_app; simpl; by rewrite ?app_nil_r.
Qed.

Lemma retry_progress_refl (s : GameClient) :
  (reconnectAttempts s <= maxReconnectAttempts s)%nat -> retry_progress s s.
Proof.
  intros H. unfold retry_progress. by rewrite backoff_nil, app_nil_r.
Qed.

Lemma retry_progress_attempt (s : GameClient) :
  (reconnectAttempts s <= maxReconnectAttempts s)%nat ->
  retry_progress s (attemptReconnect s).
Proof.
  intros Hle. destruct (attemptReconnect_step s) as (Hmax & Hn & Htr).
  unfold retry_progress. rewrite Hmax, Hn, Htr.
  destruct (Nat.ltb_spec (reconnectAttempts s) (maxReconnectAttempts s)).
  - repeat split; try lia.
    by rewrite backoff_snoc, backoff_nil by lia.
  - repeat split; try lia. by rewrite backoff_nil.
Qed.

Lemma retry_progress_trans (s1 s2 s3 : GameClient) :
  retry_progress s1 s2 -> retry_progress s2 s3 -> retry_progress s1 s3.
Proof.
  intros (M1 & L1 & U1 & T1) (M2 & L2 & U2 & T2). unfold retry_progress.
  rewrite M2, T2, T1, M1 in *. repeat split; try lia.
  rewrite <- app_assoc. f_equal. unfold backoff.
  rewrite <- fmap_app. f_equal.
  replace (reconnectAttempts s3 - reconnectAttempts s1)%nat
    with ((reconnectAttempts s2 - reconnectAttempts s1)
          + (reconnectAttempts s3 - reconnectAttempts s2))%nat by lia.
  rewrite seq_app. do 2 f_equal. lia.
Qed.

Lemma same_session_progress (s s' : GameClient) :
  (reconnectAttempts s <= maxReconnectAttempts s)%nat ->
  same_session s s' -> retry_progress s s'.
Proof.
  intros Hle (M & N & T). unfold retry_progress.
  rewrite M, N, T, backoff_nil, app_nil_r. repeat split; lia.
Qed.

Lemma centerViewport_same_session (s0 s : GameClient) :
  same_session s0 s -> same_session s0 (centerViewportOnMyAvatar s).
Proof. unfold centerViewportOnMyAvatar. by destruct (myPlayer s). Qed.

Lemma handleServerMessage_same_session (data : ServerMessage) (s : GameClient) :
  same_session s (state_of (handleServerMessage data s)).
Proof.
  destruct data as [d|patch|player avatar|playerId|a]; simpl.
  - unfold handleJoinGame. destruct (ack_success d).
    + rewrite state_of_then_draw.
      apply centerViewport_same_session. by unfold same_session.
    + unfold same_session. simpl. rewrite scheduled_app. simpl.
      by rewrite app_nil_r.
  - unfold handlePlayersMoved. rewrite state_of_then_draw.
    case_match; [apply centerViewport_same_session|]; by unfold same_session.
  - by rewrite handlePlayerJoined_state.
  - unfold handlePlayerLeft. by rewrite state_of_then_draw.
  - done.
Qed.

Lemma session_step_progress (s : GameClient) (e : SessionEvent) :
  e <> Opened ->
  (reconnectAttempts s <= maxReconnectAttempts s)%nat ->
  retry_progress s (session_step s e).
Proof.
  intros He Hle. destruct e as [ | | |created|data]; simpl; [done| | | |].
  - unfold ws_onclose.
    eapply retry_progress_trans; [|apply retry_progress_attempt; exact Hle].
    apply same_session_progress; [done|by unfold same_session].
  - apply same_session_progress; [done|]. unfold same_session, ws_onerror.
    simpl. rewrite scheduled_app. simpl. by rewrite app_nil_r.
  - unfold connectToServer. destruct created.
    + apply same_session_progress; [done|by unfold same_session].
    + eapply retry_progress_trans; [|apply retry_progress_attempt; exact Hle].
      apply same_session_progress; [done|]. unfold same_session. simpl.
      rewrite scheduled_app. simpl. by rewrite app_nil_r.
  - apply same_session_progress; [done|].
    apply handleServerMessage_same_session.
Qed.

(** Whatever happens between two successful opens (closes, errors, timers
    firing, messages), at most [maxReconnectAttempts] timers are set, with
    delays 2000, 4000, ... in that order. *)
Lemma session_run_progress (es : list SessionEvent) (s : GameClient) :
  Opened ∉ es ->
  (reconnectAttempts s <= maxReconnectAttempts s)%nat ->
  retry_progress s (session_run s es).
Proof.
  revert s. induction es as [|e es IH]; intros s Hno Hle; simpl.
  - by apply retry_progress_refl.
  - assert (He : e <> Opened) by (intros ->; apply Hno; left).
    assert (Hes : Opened ∉ es) by (intros Hin; apply Hno; by right).
    pose proof (session_step_progress s e He Hle) as Hstep.
    eapply retry_progress_trans; [exact Hstep|].
    apply IH; [exact Hes|].
    destruct Hstep as (M & _ & U & _). rewrite M. exact U.
Qed.

Lemma closes_counter (k : nat) (s : GameClient) :
  reconnectAttempts (session_run s (replicate k Closed))
  = Nat.min (reconnectAttempts s + k) (Nat.max (reconnectAttempts s) (maxReconnectAttempts s)).
Proof.
  revert s. induction k as [|k IH]; intros s; simpl.
  - lia.
  - rewrite IH. unfold ws_onclose.
    destruct (attemptReconnect_step (set_ws (Some CLOSED) s)) as (M & N & _).
    rewrite M, N. simpl.
    destruct (Nat.ltb_spec (reconnectAttempts s) (maxReconnectAttempts s)); lia.
Qed.

(** C8: each close below the maximum increments the attempt counter and
    schedules a reconnection after 2000 ms times the new attempt number;
    [k] closes in a row on a client that starts from attempt 0 with the
    maximum of 5 schedule the attempts 1 to min(k, 5) and no further one,
    so that from the sixth close on nothing is scheduled; a successful
    open resets the counter to zero. *)
Theorem reconnect_linear_backoff_bounded (s : GameClient) (k : nat) :
  reconnectAttempts s = 0%nat ->
  maxReconnectAttempts s = 5%nat ->
  (let n := reconnectAttempts (session_run s (replicate k Closed)) in
   (n < 5)%nat ->
   let s' := ws_onclose (session_run s (replicate k Closed)) in
   reconnectAttempts s' = S n
   /\ scheduled (trace s')
      = scheduled (trace (session_run s (replicate k Closed)))
          ++ [(2000 * Z.of_nat (S n))%Z])
  /\ scheduled (trace (session_run s (replicate k Closed)))
     = scheduled (trace s)
       ++ ((fun attempt => (2000 * Z.of_nat attempt)%Z) <$> seq 1 (Nat.min k 5))
  /\ scheduled (trace (session_run s (replicate (5 + S k) Closed)))
     = scheduled (trace (session_run s (replicate 5 Closed)))
  /\ reconnectAttempts (ws_onopen (session_run s (replicate k Closed))) = 0%nat.
Proof.
  intros Hzero Hmax.
  assert (Hrun : forall j, retry_progress s (session_run s (replicate j Closed))).
  { intros j. apply session_run_progress; [|lia].
    intros Hin. apply elem_of_replicate_inv in Hin. discriminate. }
  assert (Hsched : forall j,
             scheduled (trace (session_run s (replicate j Closed)))
             = scheduled (trace s)
               ++ ((fun attempt => (2000 * Z.of_nat attempt)%Z) <$> seq 1 (Nat.min j 5))).
  { intros j. destruct (Hrun j) as (_ & _ & _ & T). rewrite T.
    rewrite closes_counter, Hzero, Hmax. unfold backoff.
    do 3 f_equal. lia. }
  split; [|split; [|split]].
  - simpl. intros Hlt. unfold ws_onclose.
    destruct (attemptReconnect_step
                (set_ws (Some CLOSED) (session_run s (replicate k Closed))))
      as (_ & N & T).
    rewrite N, T. simpl.
    destruct (Hrun k) as (M & _). rewrite M, Hmax.
    destruct (Nat.ltb_spec
                (reconnectAttempts (session_run s (replicate k Closed))) 5);
      [done|lia].
  - apply Hsched.
  - rewrite !Hsched.
    assert (Nat.min (5 + S k) 5 = Nat.min 5 5) as -> by lia. reflexivity.
  - reflexivity.
Qed.

Lemma reconnect_linear_backoff_bounded_witness :
  reconnectAttempts joined = 0%nat
  /\ maxReconnectAttempts joined = 5%nat
  /\ scheduled (trace (session_run joined (replicate 7 Closed)))
     = [2000; 4000; 6000; 8000; 10000]%Z.
Proof.
  split; [reflexivity|]. split; [reflexivity|].
  exact (proj1 (proj2 (reconnect_linear_backoff_bounded joined 7 eq_refl eq_refl))).
Defined.

(** ** Input and movement controller *)

Lemma intents_app (t u : list Effect) : intents (t ++ u) = intents t ++ intents u.
Proof. unfold intents. apply omap_app. Qed.

Lemma moves_sent_app (t u : list Effect) :
  moves_sent (t ++ u) = moves_sent t ++ moves_sent u.
Proof. unfold moves_sent. apply omap_app. Qed.

Lemma last_direction_move (ms : list Intent) (d : string) :
  last_direction (ms ++ [Move d]) = Some d.
Proof. unfold last_direction. by rewrite foldl_app. Qed.

(** [sendMessage] hands the intent to the socket when it is open. *)
Lemma sendMessage_trace (m : Intent) (s : GameClient) :
  intents (trace (sendMessage m s)) = intents (trace s) ++ [m]
  /\ (ws s = Some OPEN ->
      trace (sendMessage m s) = trace s ++ [WsSend m]).
Proof.
  unfold sendMessage. split.
  - destruct (ws s) as [[]|]; simpl; by rewrite intents_app.
  - by intros ->.
Qed.

Lemma sendMessage_keys (m : Intent) (s : GameClient) :
  keysPressed (sendMessage m s) = keysPressed s.
Proof. unfold sendMessage. by destruct (ws s) as [[]|]. Qed.

Lemma sendMessage_ws (m : Intent) (s : GameClient) :
  ws (sendMessage m s) = ws s.
Proof. unfold sendMessage. by destruct (ws s) as [[]|] eqn:E. Qed.

Lemma sendMessage_movementLoopId (m : Intent) (s : GameClient) :
  movementLoopId (sendMessage m s) = movementLoopId s.
Proof. unfold sendMessage. by destruct (ws s) as [[]|]. Qed.

Lemma sendMessage_currentDirection (m : Intent) (s : GameClient) :
  currentDirection (sendMessage m s) = currentDirection s.
Proof. unfold sendMessage. by destruct (ws s) as [[]|]. Qed.

Lemma stopMovement_keys (s : GameClient) :
  keysPressed (stopMovement s) = keysPressed s.
Proof.
  unfold stopMovement, sendStopCommand. rewrite sendMessage_keys. simpl.
  by destruct (movementLoopId s).
Qed.

(** The held keys follow the two listeners; frames do not touch them. *)
Lemma input_step_keys (s : GameClient) (e : InputEvent) :
  keysPressed (input_step s e) = held_step (keysPressed s) e.
Proof.
  destruct e as [key|key|]; simpl.
  - unfold keydown. destruct (includes movementKeys key); simpl; [|done].
    destruct (includes (keysPressed s) key); simpl; [done|].
    unfold startMovement. by destruct (movementLoopId _).
  - unfold keyup. destruct (includes movementKeys key); simpl; [|done].
    destruct (filter _ (keysPressed s)) eqn:Hf; [|done].
    by rewrite stopMovement_keys.
  - unfold animationFrame. destruct (movementLoopId s); [|done].
    unfold movementLoop. destruct (keysPressed s) as [|k rest] eqn:Hk.
    + by rewrite stopMovement_keys.
    + simpl. destruct (getDirectionFromKey k); [|done].
      case_bool_decide; [done|].
      unfold sendMoveCommand. simpl. by rewrite sendMessage_keys.
Qed.

(** One frame of the running loop with a key held: a [move] goes out
    exactly when the first held key has a direction and that direction is
    not the current one, which it then becomes. *)
Lemma movementLoop_frame (s : GameClient) (firstKey : string) (rest : list string) :
  keysPressed s = firstKey :: rest ->
  let s' := movementLoop s in
  let direction := getDirectionFromKey firstKey in
  let fresh := edge_triggered (currentDirection s) [direction] in
  is_Some (movementLoopId s')
  /\ ws s' = ws s
  /\ intents (trace s') = intents (trace s) ++ (Move <$> fresh)
  /\ currentDirection s' = default (currentDirection s) (Some <$> head fresh)
  /\ (ws s = Some OPEN ->
      moves_sent (trace s') = moves_sent (trace s) ++ fresh).
Proof.
  intros Hk. simpl. unfold movementLoop. rewrite Hk.
  destruct (getDirectionFromKey firstKey) as [d|]; simpl.
  - case_bool_decide as Hd; simpl.
    + rewrite intents_app, moves_sent_app. simpl. by rewrite !app_nil_r.
    + unfold sendMoveCommand. simpl.
      destruct (sendMessage_trace (Move d)
                  (set_currentDirection (Some d) s)) as [Hi Ho].
      rewrite intents_app, Hi. simpl. rewrite app_nil_r.
      repeat split; eauto.
      * by rewrite sendMessage_ws.
      * by rewrite sendMessage_currentDirection.
      * intros Hopen. rewrite moves_sent_app, (Ho Hopen), moves_sent_app.
        simpl. by rewrite app_nil_r.
  - rewrite intents_app, moves_sent_app. simpl. by rewrite !app_nil_r.
Qed.

Lemma edge_triggered_cons (last d : option string) (ds : list (option string)) :
  edge_triggered last (d :: ds)
  = edge_triggered last [d]
    ++ edge_triggered (default last (Some <$> head (edge_triggered last [d]))) ds.
Proof.
  destruct d as [d|]; simpl; [|done]. by case_bool_decide.
Qed.

Lemma edge_triggered_changes (ds : list (option string)) (last : option string) :
  changes last (edge_triggered last ds).
Proof.
  revert last. induction ds as [|[d|] ds IH]; intros last; simpl; [done| |done].
  case_bool_decide; [done|]. by split.
Qed.

(** While the derived direction stays [d], one intent goes out if [d] was
    not the last direction sent, and none otherwise, however many frames
    pass. *)
Lemma edge_triggered_steady (last : option string) (d : string) (frames : nat) :
  edge_triggered last (replicate (S frames) (Some d))
  = if bool_decide (Some d = last) then [] else [d].
Proof.
  assert (Hsame : forall n, edge_triggered (Some d) (replicate n (Some d)) = []).
  { induction n as [|n IH]; simpl; [done|]. by rewrite bool_decide_eq_true_2. }
  simpl. case_bool_decide as Hd.
  - rewrite <- Hd. apply Hsame.
  - by rewrite Hsame.
Qed.

Lemma held_throughout_cons (keys : list string) (e : InputEvent) (es : list InputEvent) :
  held_throughout keys (e :: es) = true ->
  keys <> [] /\ held_step keys e <> [] /\ held_throughout (held_step keys e) es = true.
Proof.
  destruct keys as [|k keys]; simpl; [done|]. intros H. split; [done|].
  split; [|done]. intros Hnil. rewrite Hnil in H. by destruct es.
Qed.

(** A key event that leaves some key held changes neither the loop, the
    trace nor the current direction. *)
Lemma key_event_held (s : GameClient) (e : InputEvent) :
  e <> Frame ->
  is_Some (movementLoopId s) ->
  held_step (keysPressed s) e <> [] ->
  let s' := input_step s e in
  movementLoopId s' = movementLoopId s /\ ws s' = ws s
  /\ trace s' = trace s /\ currentDirection s' = currentDirection s.
Proof.
  intros He [h Hh] Hheld. destruct e as [key|key|]; simpl in *; [| |done].
  - unfold keydown. destruct (includes movementKeys key); [|done].
    destruct (includes (keysPressed s) key); [done|].
    unfold startMovement. simpl. by rewrite Hh.
  - unfold keyup. destruct (includes movementKeys key); [|done]. simpl.
    by destruct (filter _ (keysPressed s)).
Qed.

(** Edge-triggered sending along a run, in the form the induction on the
    run goes through. *)
Lemma input_run_edge_triggered (es : list InputEvent) (s : GameClient) :
  is_Some (movementLoopId s) ->
  held_throughout (keysPressed s) es = true ->
  let s' := input_run s es in
  let fresh :=
    edge_triggered (currentDirection s) (frame_directions (keysPressed s) es) in
  intents (trace s') = intents (trace s) ++ (Move <$> fresh)
  /\ currentDirection s' = default (currentDirection s) (Some <$> last fresh)
  /\ (ws s = Some OPEN -> moves_sent (trace s') = moves_sent (trace s) ++ fresh).
Proof.
  revert s. induction es as [|e es IH]; intros s Hloop Hheld; cbv zeta.
  - simpl. by rewrite !app_nil_r.
  - apply held_throughout_cons in Hheld as (Hne & Hne' & Hheld).
    rewrite <- input_step_keys in Hheld.
    change (input_run s (e :: es)) with (input_run (input_step s e) es).
    assert (Hcase : e = Frame \/ e <> Frame)
      by (destruct e; [right|right|left]; done).
    destruct Hcase as [->|He].
    + destruct Hloop as [h Hh].
      assert (Hstep : input_step s Frame = movementLoop s)
        by (simpl; unfold animationFrame; by rewrite Hh).
      pose proof (input_step_keys s Frame) as Hk'.
      rewrite Hstep in Hk', Hheld |- *. simpl in Hk'.
      destruct (keysPressed s) as [|k rest] eqn:Hk; [done|].
      pose proof (movementLoop_frame s k rest Hk) as Hf. cbv zeta in Hf.
      destruct Hf as (L & W & I & C & M).
      pose proof (IH (movementLoop s) L Hheld) as Hr. cbv zeta in Hr.
      rewrite Hk' in Hr. destruct Hr as (I' & C' & M').
      change (frame_directions (k :: rest) (Frame :: es))
        with (getDirectionFromKey k :: frame_directions (k :: rest) es).
      rewrite edge_triggered_cons, <- C.
      split; [|split].
      * by rewrite I', I, fmap_app, app_assoc.
      * rewrite C', last_app.
        destruct (last (edge_triggered (currentDirection (movementLoop s)) _));
          simpl; [done|].
        rewrite C.
        destruct (getDirectionFromKey k) as [d|]; simpl; [|done].
        by case_bool_decide.
      * intros Hopen. rewrite M', (M Hopen), app_assoc; [done|]. by rewrite W.
    + pose proof (key_event_held s e He Hloop) as Hkey.
      cbv zeta in Hkey.
      destruct (Hkey Hne') as (L & W & T & C).
      assert (Hfd : frame_directions (keysPressed s) (e :: es)
                    = frame_directions (keysPressed (input_step s e)) es).
      { rewrite input_step_keys. by destruct e. }
      rewrite Hfd.
      pose proof (IH (input_step s e)) as Hr. cbv zeta in Hr.
      rewrite L, T, C, W in Hr. by apply Hr.
Qed.

Lemma last_direction_app (ms : list Intent) (fresh : list string) :
  last_direction (ms ++ (Move <$> fresh))
  = default (last_direction ms) (Some <$> last fresh).
Proof.
  destruct fresh as [|d fresh _] using rev_ind.
  - simpl. by rewrite app_nil_r.
  - rewrite fmap_app, app_assoc. simpl.
    by rewrite last_direction_move, last_snoc.
Qed.

Lemma last_direction_stop (ms : list Intent) : last_direction (ms ++ [Stop]) = None.
Proof. unfold last_direction. by rewrite foldl_app. Qed.

Lemma last_direction_join (ms : list Intent) (u : string) :
  last_direction (ms ++ [JoinGame u]) = last_direction ms.
Proof. unfold last_direction. by rewrite foldl_app. Qed.

(** C5: along any run of key events and movement-loop frames during which
    some key stays held, the [move] intents handed to [sendMessage] are the
    directions derived on the frames, each taken only when it differs from
    the last direction sent: every intent differs from the one before it,
    a frame whose direction is the last one sent adds nothing, and the
    current direction is again the last direction sent when the run ends.
    With the socket open these intents are what goes out on it. *)
Theorem move_intents_edge_triggered (s : GameClient) (es : list InputEvent) :
  is_Some (movementLoopId s) ->
  currentDirection s = last_direction (intents (trace s)) ->
  held_throughout (keysPressed s) es = true ->
  let s' := input_run s es in
  let sent_before := last_direction (intents (trace s)) in
  let fresh := edge_triggered sent_before (frame_directions (keysPressed s) es) in
  intents (trace s') = intents (trace s) ++ (Move <$> fresh)
  /\ changes sent_before fresh
  /\ currentDirection s' = last_direction (intents (trace s'))
  /\ (ws s = Some OPEN -> moves_sent (trace s') = moves_sent (trace s) ++ fresh).
Proof.
  intros Hloop Hinv Hheld. cbv zeta.
  pose proof (input_run_edge_triggered es s Hloop Hheld) as Hrun.
  cbv zeta in Hrun. rewrite Hinv in Hrun. destruct Hrun as (I & C & M).
  split; [exact I|]. split; [apply edge_triggered_changes|].
  split; [|exact M].
  by rewrite C, I, last_direction_app.
Qed.

(** Left is held and its [move] has gone out; the frames that follow, the
    press of Right and the release of Left send one more intent. *)
Lemma move_intents_edge_triggered_witness :
  let s := input_run joined [KeyDown "ArrowLeft"; Frame] in
  let es := [Frame; Frame; KeyDown "ArrowRight"; Frame; KeyUp "ArrowLeft";
             Frame; Frame; Frame] in
  held_throughout (keysPressed s) es = true
  /\ moves_sent (trace s) = ["left"]
  /\ moves_sent (trace (input_run s es)) = ["left"; "right"].
Proof.
  cbv zeta. split; [reflexivity|]. split; [reflexivity|].
  refine (proj2 (proj2 (proj2
    (move_intents_edge_triggered
       (input_run joined [KeyDown "ArrowLeft"; Frame])
       [Frame; Frame; KeyDown "ArrowRight"; Frame; KeyUp "ArrowLeft";
        Frame; Frame; Frame] _ _ _))) _).
  - exists 2%nat. reflexivity.
  - reflexivity.
  - reflexivity.
  - reflexivity.
Defined.

(** After a key event that leaves a key held, the loop is pending. *)
Lemma reachable_loop_step (s : GameClient) (e : InputEvent) :
  e <> Frame ->
  keysPressed (input_step s e) <> [] ->
  (keysPressed s <> [] -> is_Some (movementLoopId s)) ->
  is_Some (movementLoopId (input_step s e)).
Proof.
  intros He Hne Hinv. destruct e as [key|key|]; [| |done].
  - simpl in *. unfold keydown in *.
    destruct (includes movementKeys key); [|by apply Hinv].
    destruct (includes (keysPressed s) key); [by apply Hinv|].
    unfold startMovement. simpl.
    destruct (movementLoopId s) eqn:Hh; simpl; [by rewrite Hh|by eexists].
  - rewrite input_step_keys in Hne. simpl in *. unfold keyup.
    destruct (includes movementKeys key); [|by apply Hinv]. simpl.
    destruct (filter _ (keysPressed s)) eqn:Hf; [done|]. simpl.
    apply Hinv. intros Hnil. by rewrite Hnil in Hf.
Qed.

(** What the loop derives on a frame is the direction of the first held
    key, and that direction is current once the frame has run. *)
Lemma frame_takes_first_held_key (s : GameClient) (d : string) :
  is_Some (movementLoopId s) ->
  activeDirection s = Some d ->
  currentDirection (animationFrame s) = Some d.
Proof.
  intros [h Hh] Hd. unfold animationFrame, activeDirection in *. rewrite Hh.
  destruct (keysPressed s) as [|k rest] eqn:Hk; [done|]. simpl in Hd.
  pose proof (movementLoop_frame s k rest Hk) as Hf. cbv zeta in Hf.
  destruct Hf as (_ & _ & _ & C & _). rewrite C, Hd. simpl.
  by case_bool_decide.
Qed.

(** C3 does not hold of the code: the upper-case letters are accepted by
    the key listeners and become held keys, but the key map has no entry
    for them, so with such a key first among the held keys the loop runs
    without deriving a direction and no [move] intent is sent. *)
Theorem uppercase_key_sends_no_move :
  Forall (fun key =>
            includes movementKeys key = true
            /\ getDirectionFromKey key = None
            /\ let s' := input_run joined [KeyDown key; Frame; Frame] in
               keysPressed s' = [key]
               /\ is_Some (movementLoopId s')
               /\ intents (trace s') = []
               /\ currentDirection s' = None)
         ["W"; "A"; "S"; "D"].
Proof.
  repeat constructor; try (vm_compute; reflexivity); vm_compute; by eexists.
Qed.

(** The arrow keys and the lower-case letters do send their direction. *)
Lemma mapped_key_sends_move :
  Forall (fun '(key, direction) =>
            includes movementKeys key = true
            /\ getDirectionFromKey key = Some direction
            /\ moves_sent (trace (input_run joined [KeyDown key; Frame; Frame]))
               = [direction])
         [("ArrowUp", "up"); ("ArrowDown", "down"); ("ArrowLeft", "left");
          ("ArrowRight", "right"); ("w", "up"); ("s", "down"); ("a", "left");
          ("d", "right")].
Proof. repeat constructor; vm_compute; reflexivity. Qed.

(** Every direction the key map yields is one of the four canonical
    ones. *)
Lemma getDirectionFromKey_canonical (key direction : string) :
  getDirectionFromKey key = Some direction ->
  direction ∈ ["up"; "down"; "left"; "right"].
Proof.
  unfold getDirectionFromKey.
  repeat (destruct (String.eqb key _); [intros [= <-]; set_solver|]).
  done.
Qed.

(** C6: on a client with no key held, pressing Left then Right leaves Left
    the first held key; releasing Left makes the active direction [right],
    releasing Right leaves it [left]; and the frame that follows makes the
    active direction the current one.  With both keys held the loop takes
    [left], the key pressed first; in any state a frame of the running
    loop makes the direction of the first held key the current one; and
    the directions sent are [left] then [right] when Left is released,
    [left] alone when Right is. *)
Theorem press_order_priority (s : GameClient) :
  keysPressed s = [] ->
  let pressed := input_run s [KeyDown "ArrowLeft"; KeyDown "ArrowRight"] in
  keysPressed pressed = ["ArrowLeft"; "ArrowRight"]
  /\ activeDirection pressed = Some "left"
  /\ activeDirection (input_run pressed [KeyUp "ArrowLeft"]) = Some "right"
  /\ activeDirection (input_run pressed [KeyUp "ArrowRight"]) = Some "left"
  /\ currentDirection (input_run pressed [Frame; KeyUp "ArrowLeft"; Frame])
     = Some "right"
  /\ currentDirection (input_run pressed [Frame; KeyUp "ArrowRight"; Frame])
     = Some "left"
  /\ currentDirection (input_run pressed [Frame]) = Some "left"
  /\ (forall (s0 : GameClient) (firstKey : string) (rest : list string)
             (direction : string),
        keysPressed s0 = firstKey :: rest ->
        is_Some (movementLoopId s0) ->
        getDirectionFromKey firstKey = Some direction ->
        currentDirection (animationFrame s0) = Some direction)
  /\ (currentDirection s = None ->
      intents (trace (input_run pressed [Frame; KeyUp "ArrowLeft"; Frame]))
      = intents (trace s) ++ [Move "left"; Move "right"]
      /\ intents (trace (input_run pressed [Frame; KeyUp "ArrowRight"; Frame]))
         = intents (trace s) ++ [Move "left"]).
Proof.
  intros Hkeys. cbv zeta.
  set (left_down := input_step s (KeyDown "ArrowLeft")).
  assert (Hpressed : input_run s [KeyDown "ArrowLeft"; KeyDown "ArrowRight"]
                     = input_step left_down (KeyDown "ArrowRight"))
    by reflexivity.
  rewrite Hpressed. set (pressed := input_step left_down (KeyDown "ArrowRight")).
  assert (Hk : keysPressed pressed = ["ArrowLeft"; "ArrowRight"]).
  { unfold pressed, left_down. rewrite !input_step_keys, Hkeys. reflexivity. }
  assert (Hl : is_Some (movementLoopId pressed)).
  { apply reachable_loop_step; [done|fold pressed; by rewrite Hk|].
    intros Hne. apply reachable_loop_step; [done|exact Hne|]. by rewrite Hkeys. }
  assert (Hfr : is_Some (movementLoopId (animationFrame pressed))
                /\ keysPressed (animationFrame pressed) = keysPressed pressed).
  { split; [|apply (input_step_keys pressed Frame)].
    unfold animationFrame. destruct Hl as [h Hh]. rewrite Hh.
    pose proof (movementLoop_frame pressed _ _ Hk) as Hm. apply Hm. }
  destruct Hfr as [Hfl Hfk].
  assert (Hup : forall key rest,
             filter (fun k => k ≠ key) (keysPressed pressed) = rest ->
             includes movementKeys key = true ->
             rest <> [] ->
             keysPressed (input_run pressed [KeyUp key]) = rest
             /\ keysPressed (input_run pressed [Frame; KeyUp key]) = rest
             /\ is_Some (movementLoopId (input_run pressed [Frame; KeyUp key]))).
  { intros key rest Hf Hin Hne.
    change (input_run pressed [KeyUp key]) with (input_step pressed (KeyUp key)).
    change (input_run pressed [Frame; KeyUp key])
      with (input_step (animationFrame pressed) (KeyUp key)).
    rewrite !input_step_keys, Hfk. cbn [held_step]. rewrite Hin, Hf.
    split; [done|]. split; [done|].
    pose proof (key_event_held (animationFrame pressed) (KeyUp key)) as Hkey.
    cbv zeta in Hkey. destruct Hkey as (L & _); [done|done| |by rewrite L].
    rewrite Hfk. cbn [held_step]. by rewrite Hin, Hf. }
  split; [exact Hk|].
  split; [unfold activeDirection; by rewrite Hk|].
  destruct (Hup "ArrowLeft" ["ArrowRight"]) as (K1 & K2 & L2);
    [by rewrite Hk|done|done|].
  destruct (Hup "ArrowRight" ["ArrowLeft"]) as (K3 & K4 & L4);
    [by rewrite Hk|done|done|].
  split; [unfold activeDirection; by rewrite K1|].
  split; [unfold activeDirection; by rewrite K3|].
  split.
  { change (input_run pressed [Frame; KeyUp "ArrowLeft"; Frame])
      with (animationFrame (input_run pressed [Frame; KeyUp "ArrowLeft"])).
    apply frame_takes_first_held_key; [exact L2|].
    unfold activeDirection. by rewrite K2. }
  split.
  { change (input_run pressed [Frame; KeyUp "ArrowRight"; Frame])
      with (animationFrame (input_run pressed [Frame; KeyUp "ArrowRight"])).
    apply frame_takes_first_held_key; [exact L4|].
    unfold activeDirection. by rewrite K4. }
  split.
  { change (input_run pressed [Frame]) with (animationFrame pressed).
    apply frame_takes_first_held_key; [exact Hl|].
    unfold activeDirection. by rewrite Hk. }
  split.
  { intros s0 firstKey rest direction Hk0 Hl0 Hd0.
    apply frame_takes_first_held_key; [exact Hl0|].
    unfold activeDirection. by rewrite Hk0. }
  intros Hcur.
  assert (Hk1 : keysPressed left_down = ["ArrowLeft"]).
  { unfold left_down. rewrite input_step_keys, Hkeys. reflexivity. }
  assert (Hl1 : is_Some (movementLoopId left_down)).
  { apply reachable_loop_step; [done|fold left_down; by rewrite Hk1|].
    by rewrite Hkeys. }
  assert (Hs1 : currentDirection left_down = None
                /\ intents (trace left_down) = intents (trace s)).
  { unfold left_down. simpl. unfold keydown. rewrite Hkeys.
    change (includes movementKeys "ArrowLeft") with true.
    change (includes [] "ArrowLeft") with false. cbv iota.
    unfold startMovement. simpl.
    destruct (movementLoopId s); simpl; rewrite ?intents_app; simpl;
      by rewrite ?app_nil_r. }
  destruct Hs1 as [Hc1 Hi1].
  split.
  - pose proof (input_run_edge_triggered
                  [KeyDown "ArrowRight"; Frame; KeyUp "ArrowLeft"; Frame]
                  left_down Hl1) as Hrun.
    cbv zeta in Hrun. rewrite Hk1, Hc1, Hi1 in Hrun.
    destruct (Hrun eq_refl) as (Hsent & _). exact Hsent.
  - pose proof (input_run_edge_triggered
                  [KeyDown "ArrowRight"; Frame; KeyUp "ArrowRight"; Frame]
                  left_down Hl1) as Hrun.
    cbv zeta in Hrun. rewrite Hk1, Hc1, Hi1 in Hrun.
    destruct (Hrun eq_refl) as (Hsent & _). exact Hsent.
Qed.

Lemma press_order_priority_witness :
  keysPressed joined = []
  /\ moves_sent
       (trace (input_run joined
                 [KeyDown "ArrowLeft"; KeyDown "ArrowRight"; Frame;
                  KeyUp "ArrowLeft"; Frame])) = ["left"; "right"]
  /\ currentDirection
       (input_run (input_run joined [KeyDown "ArrowLeft"; KeyDown "ArrowRight"])
          [Frame; KeyUp "ArrowLeft"; Frame]) = Some "right".
Proof.
  split; [reflexivity|]. split; [vm_compute; reflexivity|].
  exact (proj1 (proj2 (proj2 (proj2 (proj2
           (press_order_priority joined eq_refl)))))).
Defined.

(** ** The movement fields in every reachable state *)

Lemma same_movement_consistent (s s' : GameClient) :
  same_movement s s' -> movement_consistent s -> movement_consistent s'.
Proof.
  intros (L & K & C & I) [Hloop Hdir]. unfold movement_consistent.
  by rewrite L, K, C, I.
Qed.

Lemma centerViewport_same_movement (s0 s : GameClient) :
  same_movement s0 s -> same_movement s0 (centerViewportOnMyAvatar s).
Proof. unfold centerViewportOnMyAvatar. by destruct (myPlayer s). Qed.

Lemma attemptReconnect_same_movement (s0 s : GameClient) :
  same_movement s0 s -> same_movement s0 (attemptReconnect s).
Proof.
  intros (L & K & C & I). unfold attemptReconnect, same_movement.
  destruct (_ <? _)%nat; simpl; rewrite intents_app; simpl;
    by rewrite app_nil_r.
Qed.

Lemma handleServerMessage_same_movement (data : ServerMessage) (s : GameClient) :
  same_movement s (state_of (handleServerMessage data s)).
Proof.
  destruct data as [d|patch|player avatar|playerId|a]; simpl.
  - unfold handleJoinGame. destruct (ack_success d).
    + rewrite state_of_then_draw.
      apply centerViewport_same_movement. by unfold same_movement.
    + unfold same_movement. simpl. rewrite intents_app. simpl.
      by rewrite app_nil_r.
  - unfold handlePlayersMoved. rewrite state_of_then_draw.
    case_match; [apply centerViewport_same_movement|]; by unfold same_movement.
  - by rewrite handlePlayerJoined_state.
  - unfold handlePlayerLeft. by rewrite state_of_then_draw.
  - done.
Qed.

Lemma stopMovement_consistent (s : GameClient) :
  keysPressed s = [] -> movement_consistent (stopMovement s).
Proof.
  intros Hk. unfold movement_consistent.
  rewrite stopMovement_keys, Hk. unfold stopMovement, sendStopCommand.
  split.
  - split; [|done]. intros [h Hh].
    rewrite sendMessage_movementLoopId in Hh. simpl in Hh.
    destruct (movementLoopId s) eqn:E; simpl in Hh; congruence.
  - rewrite sendMessage_currentDirection. simpl.
    destruct (sendMessage_trace Stop
                (set_currentDirection None
                   (set_isMoving false
                      match movementLoopId s with
                      | Some handle =>
                        set_movementLoopId None (emit (CancelFrame handle) s)
                      | None => s
                      end))) as [-> _].
    by rewrite last_direction_stop.
Qed.

Lemma input_step_consistent (s : GameClient) (e : InputEvent) :
  movement_consistent s -> movement_consistent (input_step s e).
Proof.
  intros Hs. pose proof Hs as [Hloop Hdir]. destruct e as [key|key|]; simpl.
  - unfold keydown. destruct (includes movementKeys key); [|done].
    destruct (includes (keysPressed s) key); [done|].
    unfold startMovement. simpl.
    destruct (movementLoopId s) as [h|] eqn:Hh; unfold movement_consistent; simpl.
    + rewrite Hh. split; [|done]. split; [intros _|by eexists].
      by destruct (keysPressed s).
    + rewrite intents_app. simpl. rewrite app_nil_r. split; [|done].
      split; [intros _|by eexists]. by destruct (keysPressed s).
  - unfold keyup. destruct (includes movementKeys key); [|done]. simpl.
    destruct (filter (fun k => k ≠ key) (keysPressed s)) as [|k rest] eqn:Hf.
    + by apply stopMovement_consistent.
    + unfold movement_consistent. simpl. split; [|done].
      split; [done|]. intros _. apply Hloop. intros Hnil.
      by rewrite Hnil in Hf.
  - unfold animationFrame. destruct (movementLoopId s) as [h|] eqn:Hh; [|done].
    destruct (keysPressed s) as [|k rest] eqn:Hk.
    { exfalso. by apply Hloop. }
    pose proof (movementLoop_frame s k rest Hk) as Hf. cbv zeta in Hf.
    destruct Hf as (L & _ & I & C & _).
    pose proof (input_step_keys s Frame) as Hkeys. simpl in Hkeys.
    unfold animationFrame in Hkeys. rewrite Hh, Hk in Hkeys. simpl in Hkeys.
    unfold movement_consistent. rewrite Hkeys, I, C, last_direction_app, Hdir.
    split; [done|].
    destruct (getDirectionFromKey k); simpl; [|done]. by case_bool_decide.
Qed.

Lemma session_step_consistent (s : GameClient) (e : SessionEvent) :
  movement_consistent s -> movement_consistent (session_step s e).
Proof.
  intros Hs. destruct e as [ | | |created|data]; simpl.
  - unfold ws_onopen, joinGame, movement_consistent.
    destruct (sendMessage_trace (JoinGame "Tim")
                (set_reconnectAttempts 0 (set_ws (Some OPEN) s))) as [I _].
    rewrite I, last_direction_join, sendMessage_currentDirection, sendMessage_keys.
    unfold sendMessage. simpl. apply Hs.
  - eapply same_movement_consistent; [|exact Hs]. unfold ws_onclose.
    apply attemptReconnect_same_movement. by unfold same_movement.
  - eapply same_movement_consistent; [|exact Hs].
    unfold ws_onerror, same_movement. simpl. rewrite intents_app. simpl.
    by rewrite app_nil_r.
  - eapply same_movement_consistent; [|exact Hs]. unfold connectToServer.
    destruct created; [by unfold same_movement|].
    apply attemptReconnect_same_movement. unfold same_movement. simpl.
    rewrite intents_app. simpl. by rewrite app_nil_r.
  - eapply same_movement_consistent; [|exact Hs].
    apply handleServerMessage_same_movement.
Qed.

(** Every state the client reaches from [init] keeps the loop pending
    exactly while a key is held and has the last direction sent as its
    current direction. *)
Lemma reachable_movement_consistent
    (w h : Z) (created : bool) (es : list Event) :
  movement_consistent (run (init w h created) es).
Proof.
  assert (Hinit : movement_consistent (init w h created)).
  { unfold init, connectToServer. destruct created.
    - split; [|done]. split; [by intros []|done].
    - split; [|done]. split; [by intros []|done]. }
  revert Hinit. generalize (init w h created) as s.
  induction es as [|e es IH]; intros s Hs; simpl; [done|].
  apply IH. destruct e as [e|e|w' h']; simpl.
  - by apply input_step_consistent.
  - by apply session_step_consistent.
  - eapply same_movement_consistent; [|exact Hs]. unfold resize.
    rewrite state_of_then_draw. apply centerViewport_same_movement.
    by unfold same_movement.
Qed.

(** * Further properties of the code *)

(** ** World state store *)

Lemma or_else_assoc {A : Type} (a b c : option A) :
  or_else c (or_else b a) = or_else (or_else c b) a.
Proof. by destruct c. Qed.

Lemma assign_assoc (a b c : Player) : assign (assign a b) c = assign a (assign b c).
Proof.
  unfold assign. simpl. rewrite !or_else_assoc. f_equal.
  by destruct (player_animationFrame c).
Qed.

(** X1: [player_left] removes the record of the id and of no other id;
    for an id the mirror does not hold, and so for a repeated message, the
    store stays as it is. *)
Theorem player_left_removes_only_that_id (playerId : string) (s : GameClient) :
  let s' := state_of (handlePlayerLeft playerId s) in
  (forall k : string,
     players s' !! k = if decide (k = playerId) then None else players s !! k)
  /\ (players s !! playerId = None -> players s' = players s)
  /\ players (state_of (handlePlayerLeft playerId s')) = players s'
  /\ avatars s' = avatars s.
Proof.
  simpl. unfold handlePlayerLeft. rewrite !state_of_then_draw. simpl.
  repeat split.
  - intros k. case_decide as Hk.
    + subst k. apply lookup_delete_eq.
    + by rewrite lookup_delete_ne.
  - intros Habsent. by apply delete_id.
  - apply delete_id. apply lookup_delete_eq.
Qed.

Lemma player_left_removes_only_that_id_witness :
  players joined !! "ghost" = None
  /\ players (state_of (handlePlayerLeft "ghost" joined)) = players joined.
Proof.
  split; [reflexivity|].
  exact (proj1 (proj2 (player_left_removes_only_that_id "ghost" joined)) eq_refl).
Defined.

(** X2: two [players_moved] messages in a row leave the store as the one
    message would whose patch lays the second over the first, field by
    field: the last value written to a field is the one kept. *)
Theorem players_moved_twice_is_composed_patch
    (first second : gmap string Player) (s : GameClient) :
  players (state_of (handlePlayersMoved second
                       (state_of (handlePlayersMoved first s))))
  = players (state_of (handlePlayersMoved (compose_patches first second) s)).
Proof.
  rewrite !handlePlayersMoved_players. apply map_eq. intros k.
  rewrite !mergePlayers_lookup. unfold compose_patches.
  rewrite lookup_union_with.
  destruct (first !! k) as [f1|], (second !! k) as [f2|]; simpl; try done.
  f_equal. unfold spread. simpl. apply assign_assoc.
Qed.

(** X3: a patch entry for a player the mirror holds is merged field by
    field: a field the entry carries takes the entry's value, a field it
    does not carry keeps the stored one. *)
Theorem players_moved_merges_fields
    (patch : gmap string Player) (s : GameClient)
    (playerId : string) (fields old : Player) :
  patch !! playerId = Some fields ->
  players s !! playerId = Some old ->
  exists merged : Player,
    players (state_of (handlePlayersMoved patch s)) !! playerId = Some merged
    /\ player_id merged = or_else (player_id fields) (player_id old)
    /\ player_username merged
       = or_else (player_username fields) (player_username old)
    /\ player_x merged = or_else (player_x fields) (player_x old)
    /\ player_y merged = or_else (player_y fields) (player_y old)
    /\ player_facing merged = or_else (player_facing fields) (player_facing old)
    /\ player_avatar merged = or_else (player_avatar fields) (player_avatar old)
    /\ player_animationFrame merged
       = match player_animationFrame fields with
         | JUndefined => player_animationFrame old
         | v => v
         end.
Proof.
  intros Hin Hold. rewrite handlePlayersMoved_players, mergePlayers_lookup.
  rewrite Hin, Hold. eexists. split; [reflexivity|]. simpl.
  by repeat split.
Qed.

Lemma players_moved_merges_fields_witness :
  exists merged : Player,
    players (state_of (handlePlayersMoved {[ "p1" := moved_fields ]} joined))
      !! "p1" = Some merged
    /\ player_username merged = Some "alice"
    /\ player_x merged = Some 5%Q.
Proof.
  destruct (players_moved_merges_fields {[ "p1" := moved_fields ]} joined
              "p1" moved_fields alice)
    as (merged & Hm & _ & Hu & Hx & _); [reflexivity|reflexivity|].
  exists merged. split; [exact Hm|]. split; [exact Hu|exact Hx].
Defined.



(** X5: handling a server message, of whatever kind and however it ends,
    sends nothing, sets no timer, and leaves the socket, the reconnection
    counter and the movement fields alone: all it can add to the trace is
    one console error. *)
Theorem server_message_has_no_outgoing_effect
    (data : ServerMessage) (s : GameClient) :
  let s' := state_of (handleServerMessage data s) in
  (trace s' = trace s \/ exists msg : string, trace s' = trace s ++ [ConsoleError msg])
  /\ ws s' = ws s
  /\ reconnectAttempts s' = reconnectAttempts s
  /\ keysPressed s' = keysPressed s
  /\ movementLoopId s' = movementLoopId s
  /\ currentDirection s' = currentDirection s.
Proof.
  assert (Hc : forall s0 : GameClient,
             trace (centerViewportOnMyAvatar s0) = trace s0
             /\ ws (centerViewportOnMyAvatar s0) = ws s0
             /\ reconnectAttempts (centerViewportOnMyAvatar s0) = reconnectAttempts s0
             /\ keysPressed (centerViewportOnMyAvatar s0) = keysPressed s0
             /\ movementLoopId (centerViewportOnMyAvatar s0) = movementLoopId s0
             /\ currentDirection (centerViewportOnMyAvatar s0) = currentDirection s0).
  { intros s0. unfold centerViewportOnMyAvatar. by destruct (myPlayer s0). }
  destruct data as [d|patch|player avatar|playerId|a]; simpl.
  - unfold handleJoinGame. destruct (ack_success d).
    + rewrite state_of_then_draw.
      destruct (Hc (set_avatars (ack_avatars d)
                      (set_players (ack_players d)
                         (set_myPlayerId (ack_playerId d) s))))
        as (-> & -> & -> & -> & -> & ->).
      simpl. repeat split. by left.
    + simpl. repeat split. right. by eexists.
  - unfold handlePlayersMoved. rewrite state_of_then_draw.
    case_match; [|simpl; repeat split; by left].
    rewrite soft_recenter_is_hard_recenter.
    destruct (Hc (set_players (mergePlayers patch (players s)) s))
      as (-> & -> & -> & -> & -> & ->).
    simpl. repeat split. by left.
  - rewrite handlePlayerJoined_state. simpl. repeat split. by left.
  - unfold handlePlayerLeft. rewrite state_of_then_draw. simpl.
    repeat split. by left.
  - repeat split. by left.
Qed.

(** ** Camera and renderer *)

Lemma myPlayer_present (s : GameClient) (playerId : string) (p : Player) :
  myPlayerId s = Some playerId -> playerId <> "" ->
  players s !! playerId = Some p -> myPlayer s = Some p.
Proof.
  intros Hme Hne Hp. unfold myPlayer. rewrite Hme. simpl.
  destruct (String.eqb_spec playerId ""); [done|]. simpl.
  by rewrite (js_get_own _ _ _ Hp).
Qed.

(** The offset a recentre computes, and what it leaves alone. *)
Lemma recenter_viewport (s : GameClient) (p : Player) (x y : Q) :
  myPlayer s = Some p -> player_x p = Some x -> player_y p = Some y ->
  let s' := centerViewportOnMyAvatar s in
  viewportX s'
  = Num (Qmax 0 (Qmin (x - inject_Z (canvas_width s) / 2)
                   (inject_Z (worldWidth s) - inject_Z (canvas_width s))))
  /\ viewportY s'
     = Num (Qmax 0 (Qmin (y - inject_Z (canvas_height s) / 2)
                      (inject_Z (worldHeight s) - inject_Z (canvas_height s))))
  /\ canvas_width s' = canvas_width s /\ canvas_height s' = canvas_height s
  /\ worldWidth s' = worldWidth s /\ worldHeight s' = worldHeight s.
Proof.
  intros Hmy Hx Hy. simpl. unfold centerViewportOnMyAvatar.
  by rewrite Hmy, Hx, Hy.
Qed.

(** X6: a [players_moved] patch that does not name the controlled player
    leaves the viewport where it is, as long as the controlled id is not
    one of the property names every object inherits; for such an id the
    guard finds the inherited property in any patch and, with no record of
    the id in the mirror, the recentre it lets through leaves the viewport
    at NaN. *)
Theorem players_moved_elsewhere_keeps_viewport
    (patch : gmap string Player) (s : GameClient) :
  patch !! prop_key (myPlayerId s) = None ->
  let s' := state_of (handlePlayersMoved patch s) in
  (inherited (prop_key (myPlayerId s)) = false ->
   viewportX s' = viewportX s /\ viewportY s' = viewportY s)
  /\ (truthy_id (myPlayerId s) = true ->
      inherited (prop_key (myPlayerId s)) = true ->
      players s !! prop_key (myPlayerId s) = None ->
      viewportX s' = NaN /\ viewportY s' = NaN).
Proof.
  intros Hnot. simpl. unfold handlePlayersMoved. rewrite state_of_then_draw.
  simpl. split.
  - intros Hown. rewrite js_get_missing by done. by rewrite andb_false_r.
  - intros Hid Hinh Habsent. unfold js_get at 1. rewrite Hnot, Hinh, Hid. simpl.
    unfold updateViewportForMyAvatar, myPlayer. simpl. rewrite Hid.
    unfold js_get. rewrite mergePlayers_lookup, Hnot, Habsent, Hinh. done.
Qed.

Lemma players_moved_elsewhere_keeps_viewport_witness :
  viewportX (state_of (handlePlayersMoved {[ "ghost" := moved_fields ]} joined))
  = viewportX joined
  /\ viewportX (state_of (handlePlayersMoved {[ "ghost" := moved_fields ]}
                            (set_myPlayerId (Some "constructor") joined)))
     = NaN.
Proof.
  split.
  - refine (proj1 (proj1 (players_moved_elsewhere_keeps_viewport
                     {[ "ghost" := moved_fields ]} joined _) _)); reflexivity.
  - refine (proj1 (proj2 (players_moved_elsewhere_keeps_viewport
                     {[ "ghost" := moved_fields ]}
                     (set_myPlayerId (Some "constructor") joined) _) _ _ _));
      reflexivity.
Defined.

(** X7: when a [players_moved] patch carries a position for the
    controlled player, the viewport is recentred on that new position,
    whatever the mirror held for the player before. *)
Theorem players_moved_recenters_on_patched_position
    (patch : gmap string Player) (s : GameClient)
    (playerId : string) (fields : Player) (x y : Q) :
  myPlayerId s = Some playerId ->
  playerId <> "" ->
  patch !! playerId = Some fields ->
  player_x fields = Some x ->
  player_y fields = Some y ->
  let s' := state_of (handlePlayersMoved patch s) in
  exists vx vy : Q,
    viewportX s' = Num vx /\ viewportY s' = Num vy
    /\ (vx == clamp 0 (inject_Z (worldWidth s) - inject_Z (canvas_width s))
                (x - inject_Z (canvas_width s) / 2))%Q
    /\ (vy == clamp 0 (inject_Z (worldHeight s) - inject_Z (canvas_height s))
                (y - inject_Z (canvas_height s) / 2))%Q.
Proof.
  intros Hme Hne Hin Hx Hy. simpl. unfold handlePlayersMoved.
  rewrite state_of_then_draw. simpl. rewrite Hme. simpl.
  rewrite (js_get_own _ _ _ Hin).
  destruct (String.eqb_spec playerId ""); [done|]. simpl.
  rewrite soft_recenter_is_hard_recenter.
  set (s1 := set_players (mergePlayers patch (players s)) s).
  assert (Hmy : myPlayer s1 = Some (spread (players s !! playerId) fields)).
  { apply (myPlayer_present s1 playerId); [done|done|].
    unfold s1. simpl. by rewrite mergePlayers_lookup, Hin. }
  destruct (recenter_viewport s1 _ x y Hmy) as (Vx & Vy & _).
  { simpl. by rewrite Hx. }
  { simpl. by rewrite Hy. }
  eexists _, _. split; [exact Vx|]. split; [exact Vy|].
  split; apply max_min_clamp.
Qed.

Lemma players_moved_recenters_on_patched_position_witness :
  exists vx vy : Q,
    viewportX (state_of (handlePlayersMoved
                           {[ "p1" := mkPlayer None None (Some 1000%Q)
                                        (Some 2000%Q) None None JUndefined ]}
                           joined)) = Num vx
    /\ viewportY (state_of (handlePlayersMoved
                              {[ "p1" := mkPlayer None None (Some 1000%Q)
                                           (Some 2000%Q) None None JUndefined ]}
                              joined)) = Num vy
    /\ (vx == 600)%Q /\ (vy == 1448)%Q.
Proof.
  destruct (players_moved_recenters_on_patched_position
              {[ "p1" := mkPlayer None None (Some 1000%Q) (Some 2000%Q)
                           None None JUndefined ]}
              joined "p1"
              (mkPlayer None None (Some 1000%Q) (Some 2000%Q) None None JUndefined)
              1000 2000)
    as (vx & vy & Hx & Hy & Ex & Ey);
    [reflexivity|discriminate|reflexivity|reflexivity|reflexivity|].
  exists vx, vy. split; [exact Hx|]. split; [exact Hy|].
  split; [rewrite Ex|rewrite Ey]; reflexivity.
Defined.

(** The visibility test on numbers, written out. *)
Lemma visible_margin_of_bounds (s : GameClient) (vx vy x y : Q) :
  viewportX s = Num vx ->
  viewportY s = Num vy ->
  isPositionVisible s (Num x) (Num y) = true
  <-> ((-50 <= x - vx)%Q /\ (x - vx <= inject_Z (canvas_width s) + 50)%Q
       /\ (-50 <= y - vy)%Q /\ (y - vy <= inject_Z (canvas_height s) + 50)%Q).
Proof.
  intros Hx Hy. unfold isPositionVisible, worldToScreen. rewrite Hx, Hy.
  simpl. rewrite !andb_true_iff, !Qle_bool_iff. tauto.
Qed.

Lemma half_within (w : Q) : (0 <= w)%Q -> (0 <= w / 2)%Q /\ (w / 2 <= w)%Q.
Proof.
  intros Hw. unfold Qdiv. change (/ 2)%Q with (1 # 2)%Q.
  split; lra.
Qed.

(** X9: after a recentre, a controlled player standing inside the world
    is on the canvas, whatever the sizes of canvas and world, and so passes
    the visibility test. *)
Theorem recentred_player_is_on_screen
    (s : GameClient) (playerId : string) (p : Player) (x y : Q) :
  myPlayerId s = Some playerId ->
  playerId <> "" ->
  players s !! playerId = Some p ->
  player_x p = Some x ->
  player_y p = Some y ->
  (0 <= x)%Q -> (x <= inject_Z (worldWidth s))%Q ->
  (0 <= y)%Q -> (y <= inject_Z (worldHeight s))%Q ->
  (0 <= canvas_width s)%Z -> (0 <= canvas_height s)%Z ->
  let s' := centerViewportOnMyAvatar s in
  exists sx sy : Q,
    worldToScreen s' (Num x) (Num y) = (Num sx, Num sy)
    /\ (0 <= sx)%Q /\ (sx <= inject_Z (canvas_width s))%Q
    /\ (0 <= sy)%Q /\ (sy <= inject_Z (canvas_height s))%Q
    /\ isPositionVisible s' (Num x) (Num y) = true.
Proof.
  intros Hme Hne Hp Hx Hy Hx0 HxW Hy0 HyH Hw Hh. simpl.
  pose proof (myPlayer_present s playerId p Hme Hne Hp) as Hmy.
  destruct (recenter_viewport s p x y Hmy Hx Hy) as (Vx & Vy & Cw & Ch & _).
  assert (Hw' : (0 <= inject_Z (canvas_width s))%Q)
    by (change 0%Q with (inject_Z 0); by rewrite <- Zle_Qle).
  assert (Hh' : (0 <= inject_Z (canvas_height s))%Q)
    by (change 0%Q with (inject_Z 0); by rewrite <- Zle_Qle).
  set (w := inject_Z (canvas_width s)) in *.
  set (h := inject_Z (canvas_height s)) in *.
  set (W := inject_Z (worldWidth s)) in *.
  set (H := inject_Z (worldHeight s)) in *.
  destruct (half_within w Hw') as [Hw0 Hw1].
  destruct (half_within h Hh') as [Hh0 Hh1].
  assert (Bx : (0 <= x - Qmax 0 (Qmin (x - w / 2) (W - w)))%Q
               /\ (x - Qmax 0 (Qmin (x - w / 2) (W - w)) <= w)%Q).
  { destruct (Q.max_spec 0 (Qmin (x - w / 2) (W - w))) as [[? E]|[? E]];
      destruct (Q.min_spec (x - w / 2) (W - w)) as [[? E']|[? E']];
      rewrite E; try rewrite E'; split; lra. }
  assert (By : (0 <= y - Qmax 0 (Qmin (y - h / 2) (H - h)))%Q
               /\ (y - Qmax 0 (Qmin (y - h / 2) (H - h)) <= h)%Q).
  { destruct (Q.max_spec 0 (Qmin (y - h / 2) (H - h))) as [[? E]|[? E]];
      destruct (Q.min_spec (y - h / 2) (H - h)) as [[? E']|[? E']];
      rewrite E; try rewrite E'; split; lra. }
  eexists _, _. split.
  { unfold worldToScreen. rewrite Vx, Vy. reflexivity. }
  split; [apply Bx|]. split; [apply Bx|]. split; [apply By|]. split; [apply By|].
  destruct (visible_margin_of_bounds (centerViewportOnMyAvatar s) _ _ x y Vx Vy)
    as [_ Hvis].
  apply Hvis. rewrite Cw, Ch. fold w h. destruct Bx, By. repeat split; lra.
Qed.

Lemma recentred_player_is_on_screen_witness :
  exists sx sy : Q,
    worldToScreen (centerViewportOnMyAvatar joined) (Num 100) (Num 100)
    = (Num sx, Num sy)
    /\ isPositionVisible (centerViewportOnMyAvatar joined) (Num 100) (Num 100)
       = true.
Proof.
  destruct (recentred_player_is_on_screen joined "p1" alice 100 100)
    as (sx & sy & Hs & _ & _ & _ & _ & Hv);
    try reflexivity; try discriminate.
  exists sx, sy. split; [exact Hs|exact Hv].
Defined.







(** X12: a player facing west is drawn from the east frames: the image
    requested is the one requested for the same player facing east, under
    a mirrored context, with the same label at the same place and at the
    same height. *)
Theorem west_is_mirrored_east (s : GameClient) (p : Player) (sp : Sprite) :
  drawPlayer s (with_facing east p) = ImageRequested sp ->
  exists sp' : Sprite,
    drawPlayer s (with_facing west p) = ImageRequested sp'
    /\ sprite_src sp' = sprite_src sp
    /\ sprite_mirrored sp = false /\ sprite_mirrored sp' = true
    /\ sprite_y sp' = sprite_y sp
    /\ label_text sp' = label_text sp
    /\ label_x sp' = label_x sp /\ label_y sp' = label_y sp.
Proof.
  unfold drawPlayer. simpl.
  destruct (js_get (avatars s) (prop_key (player_avatar p))) as [av| |];
    [|done|done].
  change (frames_key (Some east)) with "east".
  change (frames_key (Some west)) with "east".
  destruct (avatar_frames av !! "east") as [frames|]; [|done].
  destruct (frame_at frames _) as [src|]; [|done].
  destruct (String.eqb src ""); [done|].
  intros [= <-]. eexists. split; [reflexivity|]. simpl.
  by repeat split.
Qed.

Lemma west_is_mirrored_east_witness :
  exists sp' : Sprite,
    drawPlayer joined (with_facing west alice) = ImageRequested sp'
    /\ sprite_src sp' = "e1.png" /\ sprite_mirrored sp' = true.
Proof.
  destruct (west_is_mirrored_east joined alice
              {| sprite_src := "e1.png"; sprite_x := Num (100 - 0 - 32 / 2);
                 sprite_y := Num (100 - 0 - 32); sprite_size := 32;
                 sprite_mirrored := false; label_text := Some "alice";
                 label_x := Num (100 - 0);
                 label_y := Num (100 - 0 - 32 - 5) |})
    as (sp' & Hd & Hsrc & _ & Hm & _); [reflexivity|].
  exists sp'. split; [exact Hd|]. split; [exact Hsrc|exact Hm].
Defined.

(** X13: after a recentre on a client whose canvas is no larger than the
    world, the map is painted at an offset that makes it cover the whole
    canvas: no edge of the map lies inside the canvas. *)
Theorem recentred_map_covers_canvas
    (s : GameClient) (playerId : string) (p : Player) (x y : Q) :
  myPlayerId s = Some playerId ->
  playerId <> "" ->
  players s !! playerId = Some p ->
  player_x p = Some x ->
  player_y p = Some y ->
  (canvas_width s <= worldWidth s)%Z ->
  (canvas_height s <= worldHeight s)%Z ->
  exists dx dy : Q,
    drawWorld (centerViewportOnMyAvatar s)
    = (Num dx, Num dy, worldWidth s, worldHeight s)
    /\ (dx <= 0)%Q /\ (inject_Z (canvas_width s) <= dx + inject_Z (worldWidth s))%Q
    /\ (dy <= 0)%Q /\ (inject_Z (canvas_height s) <= dy + inject_Z (worldHeight s))%Q.
Proof.
  intros Hme Hne Hp Hx Hy Hw Hh.
  pose proof (myPlayer_present s playerId p Hme Hne Hp) as Hmy.
  destruct (recenter_viewport s p x y Hmy Hx Hy) as (Vx & Vy & _ & _ & CW & CH).
  rewrite Zle_Qle in Hw, Hh.
  unfold drawWorld. rewrite Vx, Vy, CW, CH. simpl.
  eexists _, _. split; [reflexivity|].
  pose proof (max_min_clamp
                (inject_Z (worldWidth s) - inject_Z (canvas_width s))
                (x - inject_Z (canvas_width s) / 2)) as Ex.
  pose proof (max_min_clamp
                (inject_Z (worldHeight s) - inject_Z (canvas_height s))
                (y - inject_Z (canvas_height s) / 2)) as Ey.
  destruct (clamp_within 0 (inject_Z (worldWidth s) - inject_Z (canvas_width s))
              (x - inject_Z (canvas_width s) / 2)) as [Lx Ux]; [lra|].
  destruct (clamp_within 0 (inject_Z (worldHeight s) - inject_Z (canvas_height s))
              (y - inject_Z (canvas_height s) / 2)) as [Ly Uy]; [lra|].
  rewrite <- Ex in Lx, Ux. rewrite <- Ey in Ly, Uy.
  repeat split; lra.
Qed.

Lemma recentred_map_covers_canvas_witness :
  exists dx dy : Q,
    drawWorld (centerViewportOnMyAvatar joined) = (Num dx, Num dy, 2048%Z, 2048%Z)
    /\ (dx <= 0)%Q /\ (dy <= 0)%Q.
Proof.
  destruct (recentred_map_covers_canvas joined "p1" alice 100 100)
    as (dx & dy & Hd & Hx & _ & Hy & _);
    try reflexivity; try discriminate.
  exists dx, dy. split; [exact Hd|]. split; [exact Hx|exact Hy].
Defined.

(** ** Input, movement and transport *)

Lemma transmitted_app (t u : list Effect) :
  transmitted (t ++ u) = transmitted t ++ transmitted u.
Proof. unfold transmitted. apply omap_app. Qed.

Lemma includes_true_iff (l : list string) (key : string) :
  includes l key = true <-> key ∈ l.
Proof.
  unfold includes. rewrite existsb_exists. split.
  - intros (k & Hin & Heq). apply String.eqb_eq in Heq as ->.
    by apply list_elem_of_In.
  - intros Hin. exists key. split; [by apply list_elem_of_In|].
    apply String.eqb_refl.
Qed.

Lemma mapped_keys_are_movement_keys (key direction : string) :
  getDirectionFromKey key = Some direction -> includes movementKeys key = true.
Proof.
  unfold getDirectionFromKey.
  repeat match goal with
         | |- context [String.eqb key ?l] =>
           destruct (String.eqb_spec key l) as [->|_]; [intros _; reflexivity|]
         end.
  done.
Qed.

(** A socket that is not open gets nothing to send. *)
Lemma sendMessage_refused (m : Intent) (s : GameClient) :
  ws s <> Some OPEN ->
  transmitted (trace (sendMessage m s)) = transmitted (trace s).
Proof.
  intros Hclosed. unfold sendMessage.
  destruct (ws s) as [[]|]; try done; simpl;
    rewrite transmitted_app; simpl; by rewrite app_nil_r.
Qed.

(** What [stopMovement] does. *)
Lemma stopMovement_effect (s : GameClient) :
  let s' := stopMovement s in
  movementLoopId s' = None /\ currentDirection s' = None
  /\ keysPressed s' = keysPressed s /\ ws s' = ws s
  /\ intents (trace s') = intents (trace s) ++ [Stop]
  /\ (ws s <> Some OPEN -> transmitted (trace s') = transmitted (trace s)).
Proof.
  simpl. unfold stopMovement, sendStopCommand.
  set (s1 := match movementLoopId s with
             | Some handle => set_movementLoopId None (emit (CancelFrame handle) s)
             | None => s
             end).
  assert (H1 : movementLoopId s1 = None /\ keysPressed s1 = keysPressed s
               /\ ws s1 = ws s /\ intents (trace s1) = intents (trace s)
               /\ transmitted (trace s1) = transmitted (trace s)).
  { unfold s1. destruct (movementLoopId s) eqn:E; simpl;
      rewrite ?intents_app, ?transmitted_app; simpl; by rewrite ?app_nil_r. }
  destruct H1 as (L & K & W & I & T).
  set (s2 := set_currentDirection None (set_isMoving false s1)).
  rewrite sendMessage_movementLoopId, sendMessage_currentDirection,
    sendMessage_keys, sendMessage_ws.
  destruct (sendMessage_trace Stop s2) as [Hi _]. rewrite Hi.
  unfold s2. simpl. rewrite I. repeat split; try done.
  intros Hclosed. fold s2. rewrite sendMessage_refused; [done|].
  unfold s2. simpl. by rewrite W.
Qed.

Ltac unfold_input_step :=
  unfold input_step, keydown, keyup, animationFrame, movementLoop,
    startMovement, stopMovement, requestMovementFrame, sendMoveCommand,
    sendStopCommand, sendMessage.

Ltac split_trace :=
  rewrite ?intents_app, ?transmitted_app, ?scheduled_app; simpl;
  rewrite ?app_nil_r.

(** Key events and frames do not touch the socket or the reconnection
    state. *)
Lemma input_step_same_session (s : GameClient) (e : InputEvent) :
  same_session s (input_step s e) /\ ws (input_step s e) = ws s.
Proof.
  unfold same_session. unfold_input_step.
  repeat (case_match; simpl); repeat split_trace; done.
Qed.

Lemma input_step_transmitted (s : GameClient) (e : InputEvent) :
  ws s <> Some OPEN ->
  transmitted (trace (input_step s e)) = transmitted (trace s).
Proof.
  intros Hclosed. unfold_input_step.
  repeat (case_match; simpl in * ); repeat split_trace; congruence.
Qed.

Lemma input_step_intents (s : GameClient) (e : InputEvent) :
  exists fresh : list Intent,
    intents (trace (input_step s e)) = intents (trace s) ++ fresh
    /\ Forall canonical_intent fresh.
Proof.
  destruct e as [key|key|].
  - exists []. unfold_input_step.
    repeat (case_match; simpl); repeat split_trace; done.
  - simpl. unfold keyup. destruct (includes movementKeys key);
      [|exists []; by rewrite app_nil_r].
    simpl. destruct (filter _ _).
    + destruct (stopMovement_effect (set_keysPressed [] s)) as (_ & _ & _ & _ & I & _).
      exists [Stop]. split; [exact I|]. by repeat constructor.
    + exists []. by rewrite app_nil_r.
  - simpl. unfold animationFrame. destruct (movementLoopId s);
      [|exists []; by rewrite app_nil_r].
    unfold movementLoop. destruct (keysPressed s) as [|k rest] eqn:Hk.
    + destruct (stopMovement_effect s) as (_ & _ & _ & _ & I & _).
      exists [Stop]. split; [exact I|]. by repeat constructor.
    + pose proof (movementLoop_frame s k rest Hk) as Hf. cbv zeta in Hf.
      destruct Hf as (_ & _ & I & _). unfold movementLoop in I. rewrite Hk in I.
      eexists. split; [exact I|].
      destruct (getDirectionFromKey k) as [d|] eqn:Hd; simpl; [|done].
      case_bool_decide; [done|]. constructor; [|constructor].
      by apply (getDirectionFromKey_canonical k).
Qed.

(** X14: while the socket is not open, no key event and no frame of the
    movement loop transmits anything; the intents are refused, not
    queued. *)
Theorem nothing_transmitted_while_not_open (s : GameClient) (es : list InputEvent) :
  ws s <> Some OPEN ->
  let s' := input_run s es in
  ws s' = ws s /\ transmitted (trace s') = transmitted (trace s).
Proof.
  revert s. induction es as [|e es IH]; intros s Hclosed; simpl; [done|].
  destruct (input_step_same_session s e) as [_ W].
  destruct (IH (input_step s e)) as [W' T']; [by rewrite W|].
  split; [by rewrite W', W|].
  by rewrite T', input_step_transmitted.
Qed.

Lemma nothing_transmitted_while_not_open_witness :
  transmitted
    (trace (input_run (set_ws (Some CLOSED) joined)
              [KeyDown "ArrowLeft"; Frame; KeyUp "ArrowLeft"])) = [].
Proof.
  refine (proj2 (nothing_transmitted_while_not_open (set_ws (Some CLOSED) joined)
                   [KeyDown "ArrowLeft"; Frame; KeyUp "ArrowLeft"] _)).
  discriminate.
Defined.

(** X15: releasing the only held key sends [stop] and forgets the current
    direction, so that pressing the same key again sends its direction
    anew on the next frame. *)
Theorem release_then_press_resends (s : GameClient) (key direction : string) :
  keysPressed s = [key] ->
  getDirectionFromKey key = Some direction ->
  let released := input_run s [KeyUp key] in
  let s' := input_run released [KeyDown key; Frame] in
  keysPressed released = [] /\ movementLoopId released = None
  /\ currentDirection released = None
  /\ intents (trace released) = intents (trace s) ++ [Stop]
  /\ keysPressed s' = [key] /\ currentDirection s' = Some direction
  /\ intents (trace s') = intents (trace s) ++ [Stop; Move direction].
Proof.
  intros Hk Hd. cbv zeta.
  pose proof (mapped_keys_are_movement_keys key direction Hd) as Hin.
  assert (Hrel : input_run s [KeyUp key] = stopMovement (set_keysPressed [] s)).
  { simpl. unfold keyup. rewrite Hin, Hk. simpl.
    by rewrite filter_cons_False, filter_nil by (intros H; by apply H). }
  rewrite Hrel.
  destruct (stopMovement_effect (set_keysPressed [] s)) as (L & C & K & _ & I & _).
  simpl in K, I. set (released := stopMovement (set_keysPressed [] s)) in *.
  assert (Hdown : input_step released (KeyDown key)
                  = requestMovementFrame (set_keysPressed [key] released)).
  { simpl. unfold keydown. rewrite Hin, K.
    change (includes [] key) with false. cbv iota.
    unfold startMovement. simpl. by rewrite L. }
  change (input_run released [KeyDown key; Frame])
    with (animationFrame (input_step released (KeyDown key))).
  rewrite Hdown.
  set (pressed := requestMovementFrame (set_keysPressed [key] released)).
  pose proof (movementLoop_frame pressed key [] eq_refl) as Hf. cbv zeta in Hf.
  destruct Hf as (_ & _ & I' & C' & _).
  assert (Hcur : currentDirection pressed = None) by exact C.
  assert (Hint : intents (trace pressed) = intents (trace s) ++ [Stop]).
  { unfold pressed, requestMovementFrame. simpl. rewrite intents_app. simpl.
    by rewrite app_nil_r. }
  rewrite Hcur, Hd in I', C'. rewrite Hint in I'. simpl in I', C'.
  rewrite <- app_assoc in I'.
  pose proof (input_step_keys pressed Frame) as Hkeys.
  repeat split; try done.
Qed.

Lemma release_then_press_resends_witness :
  intents (trace (input_run
                    (input_run (input_run joined [KeyDown "a"; Frame]) [KeyUp "a"])
                    [KeyDown "a"; Frame]))
  = [Move "left"; Stop; Move "left"].
Proof.
  exact (proj2 (proj2 (proj2 (proj2 (proj2 (proj2
           (release_then_press_resends (input_run joined [KeyDown "a"; Frame])
              "a" "left" eq_refl eq_refl))))))).
Defined.

Lemma held_step_valid (keys : list string) (e : InputEvent) :
  held_keys_valid keys -> held_keys_valid (held_step keys e).
Proof.
  intros [Hnd Hmk]. destruct e as [key|key|]; simpl; [| |done].
  - destruct (includes movementKeys key) eqn:Hin; simpl; [|done].
    destruct (includes keys key) eqn:Hheld; simpl; [done|]. split.
    + apply NoDup_app. split; [done|]. split; [|apply NoDup_singleton].
      intros k Hk Hk'. apply list_elem_of_singleton in Hk' as ->.
      apply includes_true_iff in Hk. congruence.
    + apply Forall_app. split; [done|]. by constructor.
  - destruct (includes movementKeys key); [|done]. split.
    + by apply NoDup_filter.
    + rewrite Forall_forall in *. intros k Hk.
      apply list_elem_of_filter in Hk as [_ Hk]. by apply Hmk.
Qed.

(** Socket, timer and resize events add at most a [join_game] to the
    intents and leave the held keys alone. *)
Lemma session_step_intents (s : GameClient) (e : SessionEvent) :
  keysPressed (session_step s e) = keysPressed s
  /\ exists fresh : list Intent,
       intents (trace (session_step s e)) = intents (trace s) ++ fresh
       /\ Forall canonical_intent fresh.
Proof.
  assert (Hsame : forall s', same_movement s s' ->
                  keysPressed s' = keysPressed s
                  /\ exists fresh : list Intent,
                       intents (trace s') = intents (trace s) ++ fresh
                       /\ Forall canonical_intent fresh).
  { intros s' (_ & K & _ & I). split; [done|]. exists [].
    by rewrite app_nil_r. }
  destruct e as [ | | |created|data]; unfold session_step.
  - unfold ws_onopen, joinGame. rewrite ?sendMessage_keys. split; [done|].
    destruct (sendMessage_trace (JoinGame "Tim")
                (set_reconnectAttempts 0 (set_ws (Some OPEN) s))) as [I _].
    exists [JoinGame "Tim"]. split; [exact I|]. by repeat constructor.
  - apply Hsame. unfold ws_onclose.
    apply attemptReconnect_same_movement. by unfold same_movement.
  - apply Hsame. unfold ws_onerror, same_movement. simpl.
    rewrite intents_app. simpl. by rewrite app_nil_r.
  - apply Hsame. unfold connectToServer.
    destruct created; [by unfold same_movement|].
    apply attemptReconnect_same_movement. unfold same_movement. simpl.
    rewrite intents_app. simpl. by rewrite app_nil_r.
  - apply Hsame. apply handleServerMessage_same_movement.
Qed.

Lemma resize_same_movement (w h : Z) (s : GameClient) :
  same_movement s (state_of (resize w h s)).
Proof.
  unfold resize. rewrite state_of_then_draw.
  apply centerViewport_same_movement. by unfold same_movement.
Qed.

Lemma step_keys (s : GameClient) (e : Event) :
  keysPressed (step s e)
  = match e with
    | Input e => held_step (keysPressed s) e
    | _ => keysPressed s
    end.
Proof.
  destruct e as [e|e|w h]; simpl.
  - apply input_step_keys.
  - apply session_step_intents.
  - apply resize_same_movement.
Qed.

(** X16: in every state the client reaches, the held keys are movement
    keys and no key is held twice, which is what lets the list of keys in
    insertion order stand for the own properties of [keysPressed]. *)
Theorem reachable_held_keys_valid
    (w h : Z) (created : bool) (es : list Event) :
  held_keys_valid (keysPressed (run (init w h created) es)).
Proof.
  assert (Hinit : held_keys_valid (keysPressed (init w h created))).
  { destruct created; split; constructor. }
  revert Hinit. generalize (init w h created) as s.
  induction es as [|e es IH]; intros s Hs; simpl; [done|].
  apply IH. rewrite step_keys. destruct e; [by apply held_step_valid|done|done].
Qed.

(** X17: every [move] intent that is ever passed to [sendMessage] carries
    one of the directions up, down, left and right. *)
Theorem reachable_moves_canonical
    (w h : Z) (created : bool) (es : list Event) :
  Forall canonical_intent (intents (trace (run (init w h created) es))).
Proof.
  assert (Hinit : Forall canonical_intent (intents (trace (init w h created)))).
  { destruct created; constructor. }
  revert Hinit. generalize (init w h created) as s.
  induction es as [|e es IH]; intros s Hs; simpl; [done|].
  apply IH. destruct e as [e|e|w' h']; simpl.
  - destruct (input_step_intents s e) as (fresh & -> & Hf).
    by apply Forall_app.
  - destruct (session_step_intents s e) as (_ & fresh & -> & Hf).
    by apply Forall_app.
  - destruct (resize_same_movement w' h' s) as (_ & _ & _ & ->). done.
Qed.

Lemma step_same_session (s : GameClient) (e : Event) :
  e <> Session Opened ->
  (reconnectAttempts s <= maxReconnectAttempts s)%nat ->
  retry_progress s (step s e).
Proof.
  intros He Hle. destruct e as [e|e|w h]; simpl.
  - apply same_session_progress; [done|]. apply input_step_same_session.
  - apply session_step_progress; [congruence|done].
  - apply same_session_progress; [done|]. unfold resize.
    rewrite state_of_then_draw. apply centerViewport_same_session.
    by unfold same_session.
Qed.

(** X18: between two successful opens, whatever happens to the client
    (closes, errors, timers firing, failed connection attempts, server
    messages, key events, frames, resizes), the attempt counter never
    passes the maximum and the reconnection timers set are those of the
    attempts counted, each with 2000 ms times its attempt number as
    delay: at most [maxReconnectAttempts] timers in all. *)
Theorem retries_bounded_until_open (s : GameClient) (es : list Event) :
  Session Opened ∉ es ->
  (reconnectAttempts s <= maxReconnectAttempts s)%nat ->
  let s' := run s es in
  (reconnectAttempts s <= reconnectAttempts s')%nat
  /\ (reconnectAttempts s' <= maxReconnectAttempts s)%nat
  /\ scheduled (trace s')
     = scheduled (trace s)
       ++ ((fun attempt => (2000 * Z.of_nat attempt)%Z)
             <$> seq (S (reconnectAttempts s))
                   (reconnectAttempts s' - reconnectAttempts s))
  /\ (length (scheduled (trace s')) - length (scheduled (trace s))
      <= maxReconnectAttempts s - reconnectAttempts s)%nat.
Proof.
  intros Hno Hle. cbv zeta.
  assert (Hrun : retry_progress s (run s es)).
  { revert s Hle. induction es as [|e es IH]; intros s Hle; simpl.
    - by apply retry_progress_refl.
    - assert (He : e <> Session Opened) by (intros ->; apply Hno; left).
      assert (Hes : Session Opened ∉ es) by (intros Hin; apply Hno; by right).
      pose proof (step_same_session s e He Hle) as Hstep.
      eapply retry_progress_trans; [exact Hstep|].
      apply IH; [exact Hes|].
      destruct Hstep as (M & _ & U & _). rewrite M. exact U. }
  destruct Hrun as (_ & L & U & T). split; [done|]. split; [done|].
  split; [exact T|]. rewrite T, length_app. unfold backoff.
  rewrite length_fmap, length_seq. lia.
Qed.

Lemma retries_bounded_until_open_witness :
  scheduled
    (trace (run joined
              [Session Closed; Input (KeyDown "w"); Session (TimerFired false);
               Session Closed; Resized 640 480; Session Closed; Session Closed;
               Session (TimerFired true); Session Closed; Session Closed]))
  = [2000; 4000; 6000; 8000; 10000]%Z.
Proof.
  refine (proj1 (proj2 (proj2
    (retries_bounded_until_open joined
       [Session Closed; Input (KeyDown "w"); Session (TimerFired false);
        Session Closed; Resized 640 480; Session Closed; Session Closed;
        Session (TimerFired true); Session Closed; Session Closed] _ _)))).
  - intros Hin. repeat (apply elem_of_cons in Hin as [Hin|Hin]; [discriminate|]).
    by apply elem_of_nil in Hin.
  - vm_compute. lia.
Defined.

(** X19: once the attempts are used up, a close sets no timer and reports
    the exhaustion on the console; a successful open ends that state: the
    close after it schedules the first attempt again, 2000 ms later. *)
Theorem exhaustion_reported_and_ended_by_open (s : GameClient) :
  reconnectAttempts s = maxReconnectAttempts s ->
  (0 < maxReconnectAttempts s)%nat ->
  trace (ws_onclose s)
  = trace s ++ [ConsoleError "Max reconnection attempts reached"]
  /\ reconnectAttempts (ws_onclose s) = reconnectAttempts s
  /\ scheduled (trace (session_run s [Closed; Opened; Closed]))
     = scheduled (trace s) ++ [2000%Z]
  /\ reconnectAttempts (session_run s [Closed; Opened; Closed]) = 1%nat.
Proof.
  intros Hmax Hpos.
  assert (Hclose : ws_onclose s
                   = emit (ConsoleError "Max reconnection attempts reached")
                       (set_ws (Some CLOSED) s)).
  { unfold ws_onclose, attemptReconnect. simpl. rewrite Hmax.
    by rewrite Nat.ltb_irrefl. }
  split; [by rewrite Hclose|]. split; [by rewrite Hclose|].
  change (session_run s [Closed; Opened; Closed])
    with (ws_onclose (ws_onopen (ws_onclose s))).
  rewrite Hclose. unfold ws_onopen, joinGame, sendMessage. simpl.
  unfold ws_onclose, attemptReconnect. simpl.
  destruct (Nat.ltb_spec 0 (maxReconnectAttempts s)) as [_|?]; [|lia].
  simpl. split; [|done]. repeat split_trace. done.
Qed.

Lemma exhaustion_reported_and_ended_by_open_witness :
  let worn := session_run joined (replicate 5 Closed) in
  reconnectAttempts worn = maxReconnectAttempts worn
  /\ scheduled (trace (session_run worn [Closed; Opened; Closed]))
     = scheduled (trace worn) ++ [2000%Z].
Proof.
  cbv zeta. split; [reflexivity|].
  refine (proj1 (proj2 (proj2
    (exhaustion_reported_and_ended_by_open
       (session_run joined (replicate 5 Closed)) _ _)))).
  - reflexivity.
  - vm_compute. lia.
Defined.

Lemma session_step_currentDirection (s : GameClient) (e : SessionEvent) :
  currentDirection (session_step s e) = currentDirection s.
Proof.
  destruct e as [ | | |created|data]; unfold session_step.
  - unfold ws_onopen, joinGame. by rewrite sendMessage_currentDirection.
  - unfold ws_onclose. apply attemptReconnect_same_movement.
    by unfold same_movement.
  - done.
  - unfold connectToServer. destruct created; [done|].
    apply attemptReconnect_same_movement. unfold same_movement. simpl.
    rewrite intents_app. simpl. by rewrite app_nil_r.
  - apply handleServerMessage_same_movement.
Qed.

Lemma input_step_idle (s : GameClient) (e : InputEvent) :
  (keysPressed s = [] -> currentDirection s = None) ->
  keysPressed (input_step s e) = [] -> currentDirection (input_step s e) = None.
Proof.
  intros Hidle. destruct e as [key|key|].
  - simpl. unfold keydown. destruct (includes movementKeys key); [|done].
    destruct (includes (keysPressed s) key); [done|].
    unfold startMovement. simpl. intros Hnil. exfalso.
    destruct (movementLoopId s); simpl in Hnil; by destruct (keysPressed s).
  - simpl. unfold keyup. destruct (includes movementKeys key); [|done]. simpl.
    destruct (filter _ (keysPressed s)); [|done]. intros _.
    apply stopMovement_effect.
  - change (input_step s Frame) with (animationFrame s). intros Hnil.
    pose proof (input_step_keys s Frame) as Hkeys.
    change (input_step s Frame) with (animationFrame s) in Hkeys.
    rewrite Hnil in Hkeys. simpl in Hkeys.
    unfold animationFrame. destruct (movementLoopId s); [|by apply Hidle].
    unfold movementLoop. rewrite <- Hkeys. apply stopMovement_effect.
Qed.

(** The movement fields in every state reached from [init], with frames
    driven by [movementLoopId]. *)
Lemma reachable_movement_fields
    (w h : Z) (created : bool) (es : list Event) :
  let s := run (init w h created) es in
  (is_Some (movementLoopId s) <-> keysPressed s <> [])
  /\ currentDirection s = last_direction (intents (trace s))
  /\ (keysPressed s = [] -> currentDirection s = None).
Proof.
  cbv zeta.
  destruct (reachable_movement_consistent w h created es) as [Hloop Hdir].
  split; [exact Hloop|]. split; [exact Hdir|]. clear Hloop Hdir.
  assert (Hinit : keysPressed (init w h created) = [] ->
                  currentDirection (init w h created) = None).
  { by destruct created. }
  revert Hinit. generalize (init w h created) as s.
  induction es as [|e es IH]; intros s Hs; simpl; [done|].
  apply IH. destruct e as [e|e|w' h']; simpl.
  - by apply input_step_idle.
  - rewrite session_step_currentDirection.
    destruct (session_step_intents s e) as [-> _]. exact Hs.
  - destruct (resize_same_movement w' h' s) as (_ & -> & -> & _). exact Hs.
Qed.

(** A server message adds at most one console error to the trace and
    leaves the loop id alone. *)
Lemma handleServerMessage_trace (data : ServerMessage) (s : GameClient) :
  movementLoopId (state_of (handleServerMessage data s)) = movementLoopId s
  /\ (trace (state_of (handleServerMessage data s)) = trace s
      \/ exists msg : string,
           trace (state_of (handleServerMessage data s))
           = trace s ++ [ConsoleError msg]).
Proof.
  destruct (handleServerMessage_same_movement data s) as (L & _).
  split; [exact L|].
  destruct data as [d|patch|player avatar|playerId|a]; simpl.
  - unfold handleJoinGame. destruct (ack_success d).
    + rewrite state_of_then_draw. unfold centerViewportOnMyAvatar.
      destruct (myPlayer _); by left.
    + right. by eexists.
  - unfold handlePlayersMoved. rewrite state_of_then_draw.
    case_match; [|by left]. unfold updateViewportForMyAvatar.
    destruct (myPlayer _); by left.
  - rewrite handlePlayerJoined_state. by left.
  - unfold handlePlayerLeft. rewrite state_of_then_draw. by left.
  - by left.
Qed.
Ltac settle_requests :=
  simpl; rewrite <- ?app_assoc, ?drop_app_length, ?drop_all; simpl;
  rewrite ?Nat.eqb_refl; simpl;
  repeat match goal with
         | H : movementLoopId ?s = _ |- context [movementLoopId ?s] =>
           rewrite H
         end;
  simpl.

(** One step of the browser: the client steps as it does when frames are
    driven by [movementLoopId], and the only request waiting afterwards is
    the one the field names. *)
Lemma browser_step_requests (b : Browser) (e : Event) :
  frame_requests b = option_list (movementLoopId (client b)) ->
  client (browser_step b e) = step (client b) e
  /\ frame_requests (browser_step b e)
     = option_list (movementLoopId (client (browser_step b e))).
Proof.
  destruct b as [s requests]. simpl. intros ->.
  destruct e as [[key|key|]|e|w h].
  - unfold browser_step, new_effects. cbn [client frame_requests step].
    split; [done|]. unfold_input_step.
    repeat (case_match; simpl in * ); subst; settle_requests; done.
  - unfold browser_step, new_effects. cbn [client frame_requests step].
    split; [done|]. unfold_input_step.
    repeat (case_match; simpl in * ); subst; settle_requests; done.
  - unfold browser_step, new_effects, step, input_step, animationFrame.
    cbn [client frame_requests].
    destruct (movementLoopId s) as [handle|] eqn:Hloop; simpl; [|by rewrite Hloop].
    split; [done|]. unfold movementLoop, stopMovement, requestMovementFrame,
      sendMoveCommand, sendStopCommand, sendMessage.
    repeat (case_match; simpl in * ); subst; settle_requests; done.
  - unfold browser_step, new_effects. cbn [client frame_requests step].
    split; [done|].
    destruct e as [ | | |created|data]; unfold session_step.
    + unfold ws_onopen, joinGame, sendMessage. settle_requests. done.
    + unfold ws_onclose, attemptReconnect.
      repeat (case_match; simpl in * ); settle_requests; done.
    + unfold ws_onerror. settle_requests. done.
    + unfold connectToServer, attemptReconnect.
      repeat (case_match; simpl in * ); settle_requests; done.
    + destruct (handleServerMessage_trace data s) as (L & [->|[msg ->]]);
        rewrite L; settle_requests; done.
  - unfold browser_step, new_effects. cbn [client frame_requests step].
    split; [done|]. unfold resize. rewrite state_of_then_draw.
    unfold centerViewportOnMyAvatar. destruct (myPlayer _); settle_requests; done.
Qed.

(** X20: with the browser's waiting frame requests kept beside the
    client, in every state reached from [init] the one request waiting is
    the one [movementLoopId] names and none waits when the field is null;
    so a frame is really due exactly while a key is held, the client
    behaves as it does when frames are driven by the field, the current
    direction is the last direction sent, and with no key held there is no
    current direction. *)
Theorem reachable_loop_matches_frame_request
    (w h : Z) (created : bool) (es : list Event) :
  let b := browser_run (boot w h created) es in
  client b = run (init w h created) es
  /\ frame_requests b = option_list (movementLoopId (client b))
  /\ (frame_requests b <> [] <-> keysPressed (client b) <> [])
  /\ currentDirection (client b) = last_direction (intents (trace (client b)))
  /\ (keysPressed (client b) = [] -> currentDirection (client b) = None).
Proof.
  cbv zeta.
  assert (Hrun : client (browser_run (boot w h created) es)
                 = run (init w h created) es
                 /\ frame_requests (browser_run (boot w h created) es)
                    = option_list
                        (movementLoopId (client (browser_run (boot w h created) es)))).
  { assert (Hboot : frame_requests (boot w h created)
                    = option_list (movementLoopId (client (boot w h created))))
      by (by destruct created).
    assert (Hclient : client (boot w h created) = init w h created) by done.
    revert Hboot Hclient. generalize (boot w h created) as b.
    generalize (init w h created) as s.
    induction es as [|e es IH]; intros s b Hb Hc; simpl; [done|].
    destruct (browser_step_requests b e Hb) as [Hs Hr].
    apply IH; [exact Hr|]. by rewrite Hs, Hc. }
  destruct Hrun as [Hc Hr]. split; [exact Hc|]. split; [exact Hr|].
  rewrite Hr, Hc.
  destruct (reachable_movement_fields w h created es) as (Hloop & Hdir & Hidle).
  split; [|by split].
  rewrite <- Hloop.
  destruct (movementLoopId (run (init w h created) es)); simpl.
  - split; [by eexists|done].
  - split; [done|]. by intros [? ?].
Qed.

(** X21: a successful join acknowledgement replaces the whole mirror by
    the snapshot it carries, makes the acknowledged id the controlled
    player, and centres the viewport on that player's snapshot position,
    whatever the client held before. *)
Theorem join_ack_replaces_mirror_and_centres
    (data : JoinAck) (s : GameClient)
    (playerId : string) (p : Player) (x y : Q) :
  ack_success data = true ->
  ack_playerId data = Some playerId ->
  playerId <> "" ->
  ack_players data !! playerId = Some p ->
  player_x p = Some x ->
  player_y p = Some y ->
  let s' := state_of (handleJoinGame data s) in
  players s' = ack_players data
  /\ avatars s' = ack_avatars data
  /\ myPlayerId s' = Some playerId
  /\ exists vx vy : Q,
       viewportX s' = Num vx /\ viewportY s' = Num vy
       /\ (vx == clamp 0 (inject_Z (worldWidth s) - inject_Z (canvas_width s))
                   (x - inject_Z (canvas_width s) / 2))%Q
       /\ (vy == clamp 0 (inject_Z (worldHeight s) - inject_Z (canvas_height s))
                   (y - inject_Z (canvas_height s) / 2))%Q.
Proof.
  intros Hok Hid Hne Hp Hx Hy. simpl. unfold handleJoinGame.
  rewrite Hok, state_of_then_draw.
  set (s3 := set_avatars (ack_avatars data)
               (set_players (ack_players data)
                  (set_myPlayerId (ack_playerId data) s))).
  assert (Hmy : myPlayer s3 = Some p).
  { apply (myPlayer_present s3 playerId); [exact Hid|exact Hne|exact Hp]. }
  destruct (recenter_viewport s3 p x y Hmy Hx Hy) as (Vx & Vy & _).
  unfold centerViewportOnMyAvatar. rewrite Hmy. simpl.
  split; [done|]. split; [done|]. split; [done|].
  rewrite Hx, Hy. simpl. eexists _, _. split; [reflexivity|].
  split; [reflexivity|]. split; apply max_min_clamp.
Qed.

Lemma join_ack_replaces_mirror_and_centres_witness :
  let data := {| ack_success := true; ack_playerId := Some "p2";
                 ack_players := {[ "p2" := bob ]};
                 ack_avatars := {[ "squire" := squire ]};
                 ack_error := None |} in
  players (state_of (handleJoinGame data joined)) = {[ "p2" := bob ]}
  /\ myPlayerId (state_of (handleJoinGame data joined)) = Some "p2".
Proof.
  cbv zeta.
  destruct (join_ack_replaces_mirror_and_centres
              {| ack_success := true; ack_playerId := Some "p2";
                 ack_players := {[ "p2" := bob ]};
                 ack_avatars := {[ "squire" := squire ]};
                 ack_error := None |} joined "p2" bob 120 80)
    as (Hp & _ & Hid & _); try reflexivity; try discriminate.
  split; [exact Hp|exact Hid].
Defined.
